(** * Pizza Hut delivery simulation: a shallow embedding of [mini_project.py]

    The script drives a SimPy discrete-event simulation.  The embedding keeps
    the structure of the Python code:

    - the module constants become the fields of [Config]
      ([source_config] holds the values written in the script);
    - the global [random] module is an abstract generator ([Random]), of which
      only the shape of [random.gauss] and [random.expovariate] is fixed;
    - the SimPy environment is a clock, a queue of scheduled events ordered by
      (time, priority, insertion number) and a counter of insertion numbers;
    - a suspended generator is the event it waits for, carrying the locals of
      its frame;
    - [simpy.Resource] is its capacity, its [users] list and its [put_queue].

    Times are Python floats in the script.  They are rationals here, so
    every sum and difference is exact and rounding is not modelled. *)

From Stdlib Require Import List Sorted Permutation ZArith QArith Qround Lia Lqa Bool.
Import ListNotations.

Local Open Scope Q_scope.

(** ** Exceptions and results *)

Inductive exn : Type :=
| ValueError
| ZeroDivisionError
| KeyError
| RuntimeError.

Inductive Outcome (A : Type) : Type :=
| Returned (a : A)
| Raised (e : exn)
| OutOfFuel.

Arguments Returned {A} a.
Arguments Raised {A} e.
Arguments OutOfFuel {A}.

(** ** Module constants (lines 6-17) *)

Record Config : Type := {
  RANDOM_SEED : Z;
  SIM_TIME : Q;
  ARRIVAL_RATE : Q;
  PREP_MEAN : Q;
  PREP_STD : Q;
  DELIVERY_MEAN : Q;
  DELIVERY_STD : Q;
  SLA_TARGET : Q
}.

Definition LAMBDA (cfg : Config) : Q := ARRIVAL_RATE cfg / 60.

Definition source_config : Config := {|
  RANDOM_SEED := 42;
  SIM_TIME := 1000;
  ARRIVAL_RATE := 40;
  PREP_MEAN := 15;
  PREP_STD := 3;
  DELIVERY_MEAN := 12;
  DELIVERY_STD := 4;
  SLA_TARGET := 30
|}.

(** ** The [random] module

    The generator state is global in Python; here it is threaded through the
    run.  [std_exponential] stands for [-log(1 - random())] and [std_normal]
    for the standard normal variate [z] of [random.gauss]. *)

Class Random : Type := {
  rng_state : Type;
  seed : Z -> rng_state;
  std_exponential : rng_state -> Q * rng_state;
  std_normal : rng_state -> Q * rng_state
}.

(** [max(a, b)] of Python: the first argument wins unless the second is
    strictly larger. *)
Definition py_max (a b : Q) : Q :=
  if Qlt_le_dec a b then b else a.

Section Simulation.

Context {R : Random}.

(** [random.gauss(mu, sigma)] returns [mu + z * sigma]. *)
Definition gauss (mu sigma : Q) (g : rng_state) : Q * rng_state :=
  let (z, g') := std_normal g in (mu + z * sigma, g').

(** [random.expovariate(lambd)] returns [-log(1 - random()) / lambd]; the
    float division raises for [lambd = 0]. *)
Definition expovariate (lambd : Q) (g : rng_state) : (exn + Q) * rng_state :=
  let (e, g') := std_exponential g in
  if Qeq_bool lambd 0 then (inl ZeroDivisionError, g') else (inr (e / lambd), g').

(** The durations of [prepare_order] (line 26) and [deliver_order] (line 31). *)
Definition prep_time (cfg : Config) (g : rng_state) : Q * rng_state :=
  let (x, g') := gauss (PREP_MEAN cfg) (PREP_STD cfg) g in (py_max 5 x, g').

Definition delivery_time (cfg : Config) (g : rng_state) : Q * rng_state :=
  let (x, g') := gauss (DELIVERY_MEAN cfg) (DELIVERY_STD cfg) g in (py_max 5 x, g').

(** ** Events, requests and records *)

(** A request event of the resource, with the locals of the [order] frame
    that is (or will be) suspended on it. *)
Record Request : Type := {
  req_order_id : Z;
  req_arrival_time : Q;
  req_ready_time : Q
}.

(** What is resumed when a scheduled event is processed. *)
Inductive Event : Type :=
| Until
| InitializeGenerator
| GeneratorTimeout
| InitializeOrder (order_id : Z)
| PrepTimeout (order_id : Z) (arrival_time : Q)
| RequestGranted (r : Request)
| DeliveryTimeout (r : Request) (driver_assigned_time wait_for_driver : Q)
| ReleaseDone
| ProcessEnded
| ProcessFailed (e : exn).

Definition URGENT : nat := 0.
Definition NORMAL : nat := 1.

(** An entry [(time, priority, eid, event)] of [Environment._queue]. *)
Record Scheduled : Type := {
  due : Q;
  priority : nat;
  eid : nat;
  event : Event
}.

(** The dictionary appended to [stats] (lines 56-61). *)
Record OrderRecord : Type := {
  Order_ID : Z;
  Wait_For_Driver : Q;
  Total_Delivery_Time : Q;
  SLA_Met : bool
}.

(** Instrumentation of the resource and of order completion.  No step reads
    the log; it only names the moments the properties speak about. *)
Inductive Obs : Type :=
| ObsRequest (order_id : Z) (t : Q)
| ObsGrant (order_id : Z) (t : Q)
| ObsRelease (order_id : Z) (t : Q)
| ObsCompleted (order_id : Z)
    (arrival_time ready_time driver_assigned_time completion_time : Q).

Record State : Type := {
  now : Q;
  queue : list Scheduled;
  next_eid : nat;
  capacity : Z;
  users : list Request;
  put_queue : list Request;
  stats : list OrderRecord;
  order_id : Z;
  random : rng_state;
  log : list Obs
}.

(** ** The event queue: [heappush] and [heappop] on tuples *)

(** Tuple comparison [(t1, p1, e1) < (t2, p2, e2)]. *)
Definition entry_lt (a b : Scheduled) : bool :=
  match due a ?= due b with
  | Lt => true
  | Gt => false
  | Eq =>
      match Nat.compare (priority a) (priority b) with
      | Lt => true
      | Gt => false
      | Eq => Nat.ltb (eid a) (eid b)
      end
  end.

(** [heappop]: the smallest entry and the remaining ones. *)
Fixpoint heappop (q : list Scheduled) : option (Scheduled * list Scheduled) :=
  match q with
  | [] => None
  | x :: q' =>
      match heappop q' with
      | None => Some (x, [])
      | Some (m, r) => if entry_lt m x then Some (m, x :: r) else Some (x, q')
      end
  end.

(** ** State updates *)

(** [Environment.schedule(event, priority, delay)]. *)
Definition schedule (prio : nat) (delay : Q) (ev : Event) (s : State) : State :=
  {| now := now s;
     queue := queue s ++ [{| due := now s + delay; priority := prio;
                             eid := next_eid s; event := ev |}];
     next_eid := S (next_eid s);
     capacity := capacity s; users := users s; put_queue := put_queue s;
     stats := stats s; order_id := order_id s; random := random s;
     log := log s |}.

Definition set_clock (t : Q) (q : list Scheduled) (s : State) : State :=
  {| now := t; queue := q; next_eid := next_eid s;
     capacity := capacity s; users := users s; put_queue := put_queue s;
     stats := stats s; order_id := order_id s; random := random s;
     log := log s |}.

Definition set_random (g : rng_state) (s : State) : State :=
  {| now := now s; queue := queue s; next_eid := next_eid s;
     capacity := capacity s; users := users s; put_queue := put_queue s;
     stats := stats s; order_id := order_id s; random := g;
     log := log s |}.

Definition set_order_id (n : Z) (s : State) : State :=
  {| now := now s; queue := queue s; next_eid := next_eid s;
     capacity := capacity s; users := users s; put_queue := put_queue s;
     stats := stats s; order_id := n; random := random s;
     log := log s |}.

Definition set_resource (us pq : list Request) (o : Obs) (s : State) : State :=
  {| now := now s; queue := queue s; next_eid := next_eid s;
     capacity := capacity s; users := us; put_queue := pq;
     stats := stats s; order_id := order_id s; random := random s;
     log := log s ++ [o] |}.

Definition append_stats (r : OrderRecord) (o : Obs) (s : State) : State :=
  {| now := now s; queue := queue s; next_eid := next_eid s;
     capacity := capacity s; users := users s; put_queue := put_queue s;
     stats := stats s ++ [r]; order_id := order_id s; random := random s;
     log := log s ++ [o] |}.

(** ** SimPy processes *)

(** A generator that raises: the process event is scheduled as failed and the
    environment re-raises when it processes it. *)
Definition fail_process (e : exn) (s : State) : State :=
  schedule NORMAL 0 (ProcessFailed e) s.

(** [yield env.timeout(delay)]: a negative delay raises [ValueError] inside
    the generator. *)
Definition timeout (delay : Q) (ev : Event) (s : State) : State :=
  if Qlt_le_dec delay 0 then fail_process ValueError s
  else schedule NORMAL delay ev s.

(** ** The resource (simpy.Resource) *)

(** [Resource._do_put] followed by the queue bookkeeping of
    [BaseResource._trigger_put]: [_do_put] returns [None], so the loop looks
    at the head of [put_queue] only. *)
Definition trigger_put (s : State) : State :=
  match put_queue s with
  | [] => s
  | r :: rest =>
      if (Z.of_nat (length (users s)) <? capacity s)%Z
      then schedule NORMAL 0 (RequestGranted r)
             (set_resource (users s ++ [r]) rest
                (ObsGrant (req_order_id r) (now s)) s)
      else s
  end.

(** [resource.request()]: the request joins [put_queue], then
    [_trigger_put]. *)
Definition request (r : Request) (s : State) : State :=
  trigger_put
    (set_resource (users s) (put_queue s ++ [r])
       (ObsRequest (req_order_id r) (now s)) s).

(** [list.remove]: the first occurrence, nothing when absent
    ([_do_get] swallows the [ValueError]). *)
Fixpoint remove_request (id : Z) (us : list Request) : list Request :=
  match us with
  | [] => []
  | u :: us' => if Z.eqb (req_order_id u) id then us' else u :: remove_request id us'
  end.

(** [resource.release(request)], called by [Request.__exit__]: [_do_get]
    removes the user at once; the release event is scheduled and runs
    [_trigger_put] when it is processed. *)
Definition release (r : Request) (s : State) : State :=
  schedule NORMAL 0 ReleaseDone
    (set_resource (remove_request (req_order_id r) (users s)) (put_queue s)
       (ObsRelease (req_order_id r) (now s)) s).

(** ** The generators *)

(** One turn of the [while True] loop of [order_generator] up to its
    [yield] (line 67). *)
Definition order_generator_loop (cfg : Config) (s : State) : State :=
  let (r, g) := expovariate (LAMBDA cfg) (random s) in
  let s1 := set_random g s in
  match r with
  | inl e => fail_process e s1
  | inr gap => timeout gap GeneratorTimeout s1
  end.

(** [order] from its start to the [yield] of [prepare_order]
    (lines 37-40, 26-27). *)
Definition order_start (cfg : Config) (id : Z) (s : State) : State :=
  let arrival_time := now s in
  let (p, g) := prep_time cfg (random s) in
  timeout p (PrepTimeout id arrival_time) (set_random g s).

(** [order] from the end of the preparation to [yield request]
    (lines 41-45). *)
Definition order_ready (id : Z) (arrival_time : Q) (s : State) : State :=
  let ready_time := now s in
  request {| req_order_id := id; req_arrival_time := arrival_time;
             req_ready_time := ready_time |} s.

(** [order] from the grant to the [yield] of [deliver_order]
    (lines 46-51, 31-32). *)
Definition order_assigned (cfg : Config) (r : Request) (s : State) : State :=
  let driver_assigned_time := now s in
  let wait_for_driver := driver_assigned_time - req_ready_time r in
  let (d, g) := delivery_time cfg (random s) in
  timeout d (DeliveryTimeout r driver_assigned_time wait_for_driver)
    (set_random g s).

(** [order] from the end of the delivery to the end of the generator
    (lines 52-61), leaving the [with] block. *)
Definition order_complete (cfg : Config) (r : Request)
    (driver_assigned_time wait_for_driver : Q) (s : State) : State :=
  let completion_time := now s in
  let total_time := completion_time - req_arrival_time r in
  let s1 :=
    append_stats
      {| Order_ID := req_order_id r;
         Wait_For_Driver := wait_for_driver;
         Total_Delivery_Time := total_time;
         SLA_Met := Qle_bool total_time (SLA_TARGET cfg) |}
      (ObsCompleted (req_order_id r) (req_arrival_time r) (req_ready_time r)
         driver_assigned_time completion_time) s in
  schedule NORMAL 0 ProcessEnded (release r s1).

(** ** The event loop *)

Inductive StepResult : Type :=
| Running (s : State)
| Stopped (s : State)
| Crashed (e : exn).

(** The callbacks of an event, run at the time the event is due. *)
Definition dispatch (cfg : Config) (ev : Event) (s : State) : StepResult :=
  match ev with
  | Until => Stopped s
  | InitializeGenerator => Running (order_generator_loop cfg (set_order_id 0 s))
  | GeneratorTimeout =>
      let id := (order_id s + 1)%Z in
      Running (order_generator_loop cfg
                 (schedule URGENT 0 (InitializeOrder id) (set_order_id id s)))
  | InitializeOrder id => Running (order_start cfg id s)
  | PrepTimeout id a => Running (order_ready id a s)
  | RequestGranted r => Running (order_assigned cfg r s)
  | DeliveryTimeout r d w => Running (order_complete cfg r d w s)
  | ReleaseDone => Running (trigger_put s)
  | ProcessEnded => Running s
  | ProcessFailed e => Crashed e
  end.

(** [Environment.step]: pop the earliest entry, move the clock, run the
    callbacks.  [run] turns an empty queue into a [RuntimeError], since its
    [until] event was not reached. *)
Definition step (cfg : Config) (s : State) : StepResult :=
  match heappop (queue s) with
  | None => Crashed RuntimeError
  | Some (x, q) => dispatch cfg (event x) (set_clock (due x) q s)
  end.

(** [while True: self.step()] of [Environment.run], bounded by [fuel]. *)
Fixpoint run (cfg : Config) (fuel : nat) (s : State) : Outcome State :=
  match fuel with
  | O => OutOfFuel
  | S fuel' =>
      match step cfg s with
      | Running s' => run cfg fuel' s'
      | Stopped s' => Returned s'
      | Crashed e => Raised e
      end
  end.

(** ** [run_simulation] *)

(** Lines 73-77: the seeded generator, [Environment()] at time 0 with an
    empty queue, the empty [stats] and the resource with no user. *)
Definition fresh_state (cfg : Config) (num_drivers : Z) : State :=
  {| now := 0; queue := []; next_eid := O;
     capacity := num_drivers; users := []; put_queue := [];
     stats := []; order_id := 0; random := seed (RANDOM_SEED cfg); log := [] |}.

(** Lines 73-78 and the first half of [env.run(until=SIM_TIME)]:
    [random.seed], a fresh environment, the resource (whose constructor
    rejects a capacity [<= 0]), the generator process and the [until] event
    (rejected when it is not in the future).  The generator state [g] left by
    earlier calls is overwritten by [random.seed]. *)
Definition setup (cfg : Config) (num_drivers : Z) (g : rng_state) : exn + State :=
  if (num_drivers <=? 0)%Z then inl ValueError
  else
    let s1 := schedule URGENT 0 InitializeGenerator (fresh_state cfg num_drivers) in
    if Qle_bool (SIM_TIME cfg) (now s1) then inl ValueError
    else inr (schedule URGENT (SIM_TIME cfg - now s1) Until s1).

(** Lines 73-79: the records collected when [env.run] returns. *)
Definition simulate (cfg : Config) (fuel : nat) (num_drivers : Z) (g : rng_state)
  : Outcome State :=
  match setup cfg num_drivers g with
  | inl e => Raised e
  | inr s => run cfg fuel s
  end.

(** ** The summary (lines 81-88) *)

Record Summary : Type := {
  Drivers : Z;
  Avg_Wait_Time : Q;
  Avg_Total_Time : Q;
  SLA_Compliance : Q
}.

Definition Qsum (xs : list Q) : Q := fold_right Qplus 0 xs.

(** [Series.mean()] of a column that has at least one row. *)
Definition mean (xs : list Q) : Q :=
  Qsum xs / inject_Z (Z.of_nat (length xs)).

(** Rounding to the nearest integer, ties to the even one. *)
Definition round_half_even (x : Q) : Z :=
  let f := Qfloor x in
  match Qcompare (x - inject_Z f) (1 # 2) with
  | Lt => f
  | Gt => (f + 1)%Z
  | Eq => if Z.even f then f else (f + 1)%Z
  end.

(** [round(x, 2)]. *)
Definition round2 (x : Q) : Q :=
  inject_Z (round_half_even (x * 100)) / 100.

Definition bool_to_Q (b : bool) : Q := if b then 1 else 0.

(** [pd.DataFrame([])] has no columns, so selecting one raises
    [KeyError]. *)
Definition summarize (num_drivers : Z) (st : list OrderRecord) : Outcome Summary :=
  match st with
  | [] => Raised KeyError
  | _ :: _ =>
      Returned
        {| Drivers := num_drivers;
           Avg_Wait_Time := round2 (mean (map Wait_For_Driver st));
           Avg_Total_Time := round2 (mean (map Total_Delivery_Time st));
           SLA_Compliance :=
             round2 (mean (map (fun r => bool_to_Q (SLA_Met r)) st) * 100) |}
  end.

Definition run_simulation (cfg : Config) (fuel : nat) (num_drivers : Z)
    (g : rng_state) : Outcome Summary :=
  match simulate cfg fuel num_drivers g with
  | Returned s => summarize num_drivers (stats s)
  | Raised e => Raised e
  | OutOfFuel => OutOfFuel
  end.

(** ** Reachable states of a run *)

Definition step_to (cfg : Config) (s s' : State) : Prop :=
  step cfg s = Running s' \/ step cfg s = Stopped s'.

Inductive reachable (cfg : Config) (s0 : State) : State -> Prop :=
| reach_start : reachable cfg s0 s0
| reach_next (s s' : State) :
    reachable cfg s0 s -> step_to cfg s s' -> reachable cfg s0 s'.

(** [k] further steps of the loop, for looking at a run before it ends. *)
Fixpoint advance (cfg : Config) (k : nat) (s : State) : State :=
  match k with
  | O => s
  | S k' =>
      match step cfg s with
      | Running s' => advance cfg k' s'
      | Stopped s' => s'
      | Crashed _ => s
      end
  end.

(** The state a run starts from, when [setup] succeeds. *)
Definition start_state (cfg : Config) (num_drivers : Z) (g : rng_state) : State :=
  match setup cfg num_drivers g with
  | inr s => s
  | inl _ => fresh_state cfg num_drivers
  end.

(** * Specification *)

(** ** Capacity *)

Definition within_capacity (s : State) : Prop :=
  (0 <= Z.of_nat (length (users s)) <= capacity s)%Z.

(** ** Time stamps *)

(** A request made at [ready_time], seen at time [t]. *)
Definition request_ok (r : Request) (t : Q) : Prop :=
  req_arrival_time r + 5 <= req_ready_time r /\ req_ready_time r <= t.

(** What the locals carried by an event due at [t] satisfy. *)
Definition event_ok (t : Q) (ev : Event) : Prop :=
  match ev with
  | PrepTimeout _ a => a + 5 <= t
  | RequestGranted r => request_ok r t
  | DeliveryTimeout r d w =>
      request_ok r d /\ d + 5 <= t /\ w = d - req_ready_time r
  | _ => True
  end.

Definition obs_ok (o : Obs) : Prop :=
  match o with
  | ObsCompleted _ a r d c => a + 5 <= r /\ r <= d /\ d + 5 <= c
  | _ => True
  end.

(** A record of [stats] is computed from the time stamps of a completed
    order. *)
Definition record_ok (l : list Obs) (rec : OrderRecord) : Prop :=
  exists a r d c,
    In (ObsCompleted (Order_ID rec) a r d c) l /\
    Wait_For_Driver rec = d - r /\
    Total_Delivery_Time rec = c - a.

Definition entry_ok (t : Q) (x : Scheduled) : Prop :=
  t <= due x /\ event_ok (due x) (event x).

Record timing_inv (s : State) : Prop := {
  inv_queue : Forall (entry_ok (now s)) (queue s);
  inv_put_queue : Forall (fun r => request_ok r (now s)) (put_queue s);
  inv_log : Forall obs_ok (log s);
  inv_stats : Forall (record_ok (log s)) (stats s)
}.

(** ** First come, first served *)

(** The orders that asked for a driver and when, in the order of their
    requests. *)
Definition requests (l : list Obs) : list (Z * Q) :=
  flat_map (fun o => match o with ObsRequest id t => [(id, t)] | _ => [] end) l.

(** The orders that were given a driver and when, in the order of the
    grants. *)
Definition grants (l : list Obs) : list (Z * Q) :=
  flat_map (fun o => match o with ObsGrant id t => [(id, t)] | _ => [] end) l.

Definition not_later (x y : Z * Q) : Prop := snd x <= snd y.

Record fifo_inv (s : State) : Prop := {
  fifo_prefix :
    map fst (requests (log s)) =
    map fst (grants (log s)) ++ map req_order_id (put_queue s);
  fifo_grants_sorted : StronglySorted not_later (grants (log s));
  fifo_grants_past : Forall (fun x => snd x <= now s) (grants (log s));
  fifo_requests_sorted : StronglySorted not_later (requests (log s));
  fifo_requests_past : Forall (fun x => snd x <= now s) (requests (log s))
}.

(** The order whose generator an event resumes before its request. *)
Definition pending_id (ev : Event) : list Z :=
  match ev with
  | InitializeOrder id => [id]
  | PrepTimeout id _ => [id]
  | _ => []
  end.

(** The orders that were started and have not asked for a driver yet. *)
Definition pending (q : list Scheduled) : list Z :=
  flat_map (fun x => pending_id (event x)) q.

(** Order numbers are used once and never exceed the counter of
    [order_generator]. *)
Definition ids_ok (ids : list Z) (counter : Z) : Prop :=
  NoDup ids /\ Forall (fun id => (id <= counter)%Z) ids.

Definition ids_inv (s : State) : Prop :=
  ids_ok (pending (queue s) ++ map fst (requests (log s))) (order_id s).

(** Before the arrival generator is resumed for the first time the queue
    holds its [Initialize] event and, until it is popped, the [until] event;
    afterwards no [Initialize] event of the generator is left. *)
Definition before_start (s : State) : Prop :=
  log s = [] /\
  ((exists x u, queue s = [x; u] /\ event x = InitializeGenerator /\
                event u = Until) \/
   (exists x, queue s = [x] /\ event x = InitializeGenerator)).

Definition after_start (s : State) : Prop :=
  Forall (fun x => event x <> InitializeGenerator) (queue s).

Definition numbering_inv (s : State) : Prop :=
  before_start s \/ (after_start s /\ ids_inv s).

(** ** Runs that differ in the capacity only *)


Definition map_step (f : State -> State) (r : StepResult) : StepResult :=
  match r with
  | Running s => Running (f s)
  | Stopped s => Stopped (f s)
  | Crashed e => Crashed e
  end.


(** No request is left waiting in [put_queue] after any of the first [fuel]
    steps from [s]. *)
Fixpoint no_waiting (cfg : Config) (fuel : nat) (s : State) : bool :=
  match fuel with
  | O => true
  | S fuel' =>
      match step cfg s with
      | Running s' =>
          match put_queue s' with
          | [] => no_waiting cfg fuel' s'
          | _ :: _ => false
          end
      | _ => true
      end
  end.

(** ** The log is instrumentation *)

Definition erase_log (s : State) : State :=
  {| now := now s; queue := queue s; next_eid := next_eid s;
     capacity := capacity s; users := users s; put_queue := put_queue s;
     stats := stats s; order_id := order_id s; random := random s;
     log := [] |}.

(** ** The SLA flag *)

Definition sla_inv (cfg : Config) (s : State) : Prop :=
  Forall (fun rec =>
            SLA_Met rec = Qle_bool (Total_Delivery_Time rec) (SLA_TARGET cfg))
    (stats s).

(** * The sweep over the number of drivers (lines 91-95) *)

(** [driver_range = range(5, 21)]. *)
Definition driver_range : list Z := map Z.of_nat (seq 5 16).



(** * Further specification *)

(** ** The clock and the horizon *)

(** Arrival times carried by the frames are not negative. *)
Definition arrival_ok (ev : Event) : Prop :=
  match ev with
  | PrepTimeout _ a => 0 <= a
  | RequestGranted r => 0 <= req_arrival_time r
  | DeliveryTimeout r _ _ => 0 <= req_arrival_time r
  | _ => True
  end.

(** What was observed lies in the past of [t]. *)
Definition obs_past (t : Q) (o : Obs) : Prop :=
  match o with
  | ObsRequest _ u => u <= t
  | ObsGrant _ u => u <= t
  | ObsRelease _ u => u <= t
  | ObsCompleted _ a _ _ c => 0 <= a /\ c <= t
  end.

Record bounds_inv (s : State) : Prop := {
  bounds_now : 0 <= now s;
  bounds_queue : Forall (fun x => arrival_ok (event x)) (queue s);
  bounds_put_queue : Forall (fun r => 0 <= req_arrival_time r) (put_queue s);
  bounds_log : Forall (obs_past (now s)) (log s)
}.

(** The [until] event is due at the horizon. *)
Definition until_inv (cfg : Config) (s : State) : Prop :=
  Forall (fun x => event x = Until -> due x == SIM_TIME cfg) (queue s).

(** While the loop runs, the [until] event is pending and the clock has not
    passed the horizon. *)
Record before_horizon (cfg : Config) (s : State) : Prop := {
  bh_timing : timing_inv s;
  bh_until : until_inv cfg s;
  bh_pending : exists u, In u (queue s) /\ event u = Until;
  bh_now : 0 <= now s /\ now s <= SIM_TIME cfg
}.

(** The [until] event is urgent, the end of a delivery is not. *)
Definition priority_ok (x : Scheduled) : Prop :=
  match event x with
  | Until => priority x = URGENT
  | DeliveryTimeout _ _ _ => priority x = NORMAL
  | _ => True
  end.

Definition completed_before (t : Q) (o : Obs) : Prop :=
  match o with
  | ObsCompleted _ _ _ _ c => c < t
  | _ => True
  end.

Record strictly_before (cfg : Config) (s : State) : Prop := {
  sb_horizon : before_horizon cfg s;
  sb_priority : Forall priority_ok (queue s);
  sb_log : Forall (completed_before (SIM_TIME cfg)) (log s)
}.

(** Order of two entries by time, then priority. *)
Definition not_after (a b : Scheduled) : Prop :=
  due a < due b \/ (due a == due b /\ (priority a <= priority b)%nat).

(** ** Arrival and completion order *)

(** The order and the arrival time that a frame carries; the process of
    an order that has not started yet arrives when its [Initialize] event
    is due. *)
Definition arrival_of (x : Scheduled) : list (Z * Q) :=
  match event x with
  | InitializeOrder id => [(id, due x)]
  | PrepTimeout id a => [(id, a)]
  | RequestGranted r => [(req_order_id r, req_arrival_time r)]
  | DeliveryTimeout r _ _ => [(req_order_id r, req_arrival_time r)]
  | _ => []
  end.

Definition arrival_logged (o : Obs) : list (Z * Q) :=
  match o with
  | ObsCompleted id a _ _ _ => [(id, a)]
  | _ => []
  end.

(** Every order started so far with its arrival time, whatever its stage. *)
Definition arrivals (s : State) : list (Z * Q) :=
  flat_map arrival_of (queue s) ++
  map (fun r => (req_order_id r, req_arrival_time r)) (put_queue s) ++
  flat_map arrival_logged (log s).

Definition arrival_inv (s : State) : Prop :=
  (forall i a, In (i, a) (arrivals s) -> a <= now s) /\
  (forall i a j b, In (i, a) (arrivals s) -> In (j, b) (arrivals s) ->
     (i < j)%Z -> a <= b).

(** The completed orders with their completion times, in the order of the
    log. *)
Definition completions (l : list Obs) : list (Z * Q) :=
  flat_map (fun o => match o with
                     | ObsCompleted id _ _ _ c => [(id, c)]
                     | _ => []
                     end) l.

Definition completion_inv (s : State) : Prop :=
  StronglySorted Qle (map snd (completions (log s))) /\
  Forall (fun c => c <= now s) (map snd (completions (log s))).

(** ** Orders that never wait *)

(** A grant is due at the time its order got ready, and a delivery under
    way carries a wait of 0. *)
Definition prompt_event (x : Scheduled) : Prop :=
  match event x with
  | RequestGranted r => due x == req_ready_time r
  | DeliveryTimeout _ _ w => w == 0
  | _ => True
  end.

Record prompt_inv (s : State) : Prop := {
  prompt_put_queue : put_queue s = [];
  prompt_queue : Forall prompt_event (queue s);
  prompt_stats : Forall (fun rec => Wait_For_Driver rec == 0) (stats s)
}.

(** ** The stages of the orders *)

(** What the pending events of a queue contribute. *)
Definition collect {A : Type} (f : Event -> list A) (q : list Scheduled) : list A :=
  flat_map (fun x => f (event x)) q.

(** The order that holds a driver when this event is pending: it was granted
    one and has not completed its delivery. *)
Definition holding_id (ev : Event) : list Z :=
  match ev with
  | RequestGranted r => [req_order_id r]
  | DeliveryTimeout r _ _ => [req_order_id r]
  | _ => []
  end.

Definition waiting (s : State) : list Z := map req_order_id (put_queue s).

Definition completed (l : list Obs) : list Z :=
  flat_map (fun o => match o with ObsCompleted id _ _ _ _ => [id] | _ => [] end) l.

(** The order numbers [1, ..., n]. *)
Definition ids_upto (n : Z) : list Z := map Z.of_nat (seq 1 (Z.to_nat n)).

(** Every order started so far is in exactly one stage: in preparation,
    waiting for a driver, with a driver, or completed.  [p] and [h] are the
    orders of the event being processed. *)
Record stages (p h : list Z) (s : State) : Prop := {
  stages_counter : (0 <= order_id s)%Z;
  stages_all :
    Permutation
      (p ++ collect pending_id (queue s) ++ waiting s ++
       h ++ collect holding_id (queue s) ++ completed (log s))
      (ids_upto (order_id s));
  stages_users :
    Permutation (map req_order_id (users s)) (h ++ collect holding_id (queue s));
  stages_stats : map Order_ID (stats s) = completed (log s)
}.

(** Nothing has happened yet. *)
Definition idle (s : State) : Prop :=
  before_start s /\ order_id s = 0%Z /\ users s = [] /\ put_queue s = [] /\
  stats s = [].

Definition lifecycle_inv (s : State) : Prop :=
  idle s \/ (after_start s /\ stages [] [] s).

(** ** Work conservation *)

Definition release_mark (ev : Event) : list unit :=
  match ev with
  | ReleaseDone => [tt]
  | _ => []
  end.

(** With [extra] releases being processed: when an order waits, every free
    driver is matched by a release that has still to be processed, and such
    releases are due now. *)
Record work_inv (extra : nat) (s : State) : Prop := {
  work_free :
    put_queue s = [] \/
    (capacity s - Z.of_nat (length (users s)) <=
     Z.of_nat (extra + length (collect release_mark (queue s))))%Z;
  work_due :
    Forall (fun x => event x = ReleaseDone -> due x == now s) (queue s)
}.

End Simulation.

(** ** A generator that replays fixed draws

    [seed] installs the two lists; an exhausted list yields [0]. *)
Definition pop_draw (xs : list Q) : Q * list Q :=
  match xs with
  | [] => (0, [])
  | x :: xs' => (x, xs')
  end.

Definition replay (exps normals : list Q) : Random := {|
  rng_state := list Q * list Q;
  seed := fun _ => (exps, normals);
  std_exponential := fun g => let (e, es) := pop_draw (fst g) in (e, (es, snd g));
  std_normal := fun g => let (z, zs) := pop_draw (snd g) in (z, (fst g, zs))
|}.

(** ** Sample runs

    With the constants of the script a gap is [1.5] times the exponential
    draw.  In both samples order 1 arrives at 1.5 and order 2 at 3, the third
    arrival falls behind the horizon, both preparations take 15 and the
    delivery of order 1 takes 12 (from 16.5 to 28.5).  Order 2 is ready at 18,
    while order 1 is being delivered. *)

(** The delivery of order 2 takes 12. *)
Definition two_orders : Random := replay [1; 1; 1000] [0; 0; 0; 0].

(** The delivery of order 2 takes [12 + 241 * 4 = 976]: it ends at 994 when
    it starts at 18, and behind the horizon when it starts at 28.5. *)
Definition late_delivery : Random := replay [1; 1; 1000] [0; 0; 0; 241].


(** The script with a negative SLA target. *)
Definition negative_sla_config : Config := {|
  RANDOM_SEED := 42;
  SIM_TIME := 1000;
  ARRIVAL_RATE := 40;
  PREP_MEAN := 15;
  PREP_STD := 3;
  DELIVERY_MEAN := 12;
  DELIVERY_STD := 4;
  SLA_TARGET := -1
|}.

Definition no_draws : list Q * list Q := ([], []).

(** One driver, sample [two_orders]: the start, the state in which order 1
    holds the driver and order 2 waits, and the end of the run. *)
Definition one_driver_start : @State two_orders :=
  @start_state two_orders source_config 1 no_draws.

Definition one_driver_busy : @State two_orders :=
  @advance two_orders source_config 8 one_driver_start.

Definition one_driver_end : @State two_orders :=
  @advance two_orders source_config 40 one_driver_start.


(** The state of that run at time 28.5 in which order 1 has given back
    the driver and order 2 still waits: the release event is pending. *)
Definition one_driver_released : @State two_orders :=
  @advance two_orders source_config 9 one_driver_start.





(** The script with a horizon of 10. *)
Definition short_horizon_config : Config := {|
  RANDOM_SEED := 42;
  SIM_TIME := 10;
  ARRIVAL_RATE := 40;
  PREP_MEAN := 15;
  PREP_STD := 3;
  DELIVERY_MEAN := 12;
  DELIVERY_STD := 4;
  SLA_TARGET := 30
|}.

(** The first gap is 1500, behind the horizon of the script. *)
Definition no_orders : Random := replay [1000] [].

(** * Properties *)

Section Properties.

Context {R : Random}.

(** ** The event queue *)

Lemma heappop_perm (q q' : list Scheduled) (x : Scheduled) :
  heappop q = Some (x, q') -> Permutation q (x :: q').
Proof.
  revert x q'; induction q as [|y q IH]; intros x q'; simpl; [discriminate|].
  destruct (heappop q) as [[m r]|] eqn:E.
  - specialize (IH _ _ eq_refl).
    destruct (entry_lt m y); intros H; injection H as <- <-.
    + rewrite IH. apply perm_swap.
    + reflexivity.
  - destruct q; [|simpl in E; destruct (heappop q) as [[? ?]|];
                   [destruct (entry_lt _ _)|]; discriminate].
    intros H; injection H as <- <-. reflexivity.
Qed.

Lemma heappop_In (q q' : list Scheduled) (x : Scheduled) :
  heappop q = Some (x, q') -> In x q /\ incl q' q.
Proof.
  intros H. apply heappop_perm in H. split.
  - apply (Permutation_in _ (Permutation_sym H)). now left.
  - intros y Hy. apply (Permutation_in _ (Permutation_sym H)). now right.
Qed.

(** ** The generator draws *)

Lemma py_max_lower (a b : Q) : a <= py_max a b.
Proof.
  unfold py_max; destruct (Qlt_le_dec a b); lra.
Qed.

Lemma prep_time_floor (cfg : Config) (g : rng_state) : 5 <= fst (prep_time cfg g).
Proof.
  unfold prep_time; destruct (gauss _ _ g); simpl; apply py_max_lower.
Qed.

Lemma delivery_time_floor (cfg : Config) (g : rng_state) :
  5 <= fst (delivery_time cfg g).
Proof.
  unfold delivery_time; destruct (gauss _ _ g); simpl; apply py_max_lower.
Qed.

(** ** Invariants of the event loop *)

(** A property kept by every step holds in every reachable state. *)
Lemma reachable_ind_inv (cfg : Config) (P : State -> Prop) (s0 : State) :
  P s0 ->
  (forall s s', P s -> step_to cfg s s' -> P s') ->
  forall s, reachable cfg s0 s -> P s.
Proof.
  intros H0 Hstep s Hr; induction Hr; eauto.
Qed.

Lemma run_reachable (cfg : Config) (fuel : nat) (s s' : State) :
  run cfg fuel s = Returned s' -> reachable cfg s s'.
Proof.
  revert s; induction fuel as [|n IH]; intros s; simpl; [discriminate|].
  destruct (step cfg s) as [s1|s1|e] eqn:E; intros H.
  - specialize (IH _ H). clear H.
    induction IH.
    + eapply reach_next; [apply reach_start | now left].
    + eapply reach_next; eauto.
  - injection H as <-. eapply reach_next; [apply reach_start | now right].
  - discriminate.
Qed.

Lemma advance_reachable (cfg : Config) (k : nat) (s : State) :
  reachable cfg s (advance cfg k s).
Proof.
  assert (H : forall s0 t, reachable cfg s0 t -> reachable cfg s0 (advance cfg k t)).
  { induction k as [|k IH]; intros s0 t Ht; simpl; [exact Ht|].
    destruct (step cfg t) as [t'|t'|e] eqn:E.
    - apply IH. eapply reach_next; [exact Ht | now left].
    - eapply reach_next; [exact Ht | now right].
    - exact Ht. }
  apply H, reach_start.
Qed.

(** The state reached by one step is the result of [dispatch] on the popped
    entry. *)
Lemma step_to_dispatch (cfg : Config) (s s' : State) :
  step_to cfg s s' ->
  exists x q,
    heappop (queue s) = Some (x, q) /\
    (dispatch cfg (event x) (set_clock (due x) q s) = Running s' \/
     dispatch cfg (event x) (set_clock (due x) q s) = Stopped s').
Proof.
  unfold step_to, step.
  destruct (heappop (queue s)) as [[x q]|].
  - intros H; exists x, q; auto.
  - intros [H|H]; discriminate.
Qed.

(** Unfolds the bodies of the generators and of the resource operations and
    splits on every test they make. *)
Ltac split_ops :=
  unfold order_start, order_ready, order_assigned, order_complete,
    order_generator_loop, request, release, trigger_put, timeout,
    fail_process;
  simpl;
  repeat match goal with
         | |- context [match ?x with _ => _ end] => destruct x; simpl
         end.

Lemma dispatch_capacity_eq (cfg : Config) (ev : Event) (s s' : State) :
  dispatch cfg ev s = Running s' \/ dispatch cfg ev s = Stopped s' ->
  capacity s' = capacity s.
Proof.
  intros [H|H]; destruct ev; simpl in H; try discriminate;
    injection H as <-; split_ops; reflexivity.
Qed.

(** The log does not influence a step: with the log erased, the step gives
    the same result up to the log. *)
Lemma step_ignores_log (cfg : Config) (s : State) :
  map_step erase_log (step cfg (erase_log s)) = map_step erase_log (step cfg s).
Proof.
  unfold step; simpl.
  destruct (heappop (queue s)) as [[x q]|]; [|reflexivity].
  destruct (event x); simpl; try reflexivity; f_equal; split_ops; reflexivity.
Qed.

(** *** Capacity *)

Lemma remove_request_length (id : Z) (us : list Request) :
  (length (remove_request id us) <= length us)%nat.
Proof.
  induction us as [|u us IH]; simpl; [lia|].
  destruct (Z.eqb (req_order_id u) id); simpl; lia.
Qed.

Lemma timeout_fields (d : Q) (ev : Event) (s : State) :
  capacity (timeout d ev s) = capacity s /\
  users (timeout d ev s) = users s /\
  put_queue (timeout d ev s) = put_queue s /\
  stats (timeout d ev s) = stats s /\
  log (timeout d ev s) = log s /\
  now (timeout d ev s) = now s.
Proof.
  unfold timeout, fail_process; destruct (Qlt_le_dec d 0); simpl;
    repeat split.
Qed.

Lemma trigger_put_capacity (s : State) :
  within_capacity s -> within_capacity (trigger_put s).
Proof.
  unfold within_capacity, trigger_put.
  destruct (put_queue s) as [|r rest]; [auto|].
  destruct (Z.ltb_spec (Z.of_nat (length (users s))) (capacity s)); [|auto].
  simpl. rewrite length_app. simpl. lia.
Qed.

Lemma order_generator_loop_fields (cfg : Config) (s : State) :
  capacity (order_generator_loop cfg s) = capacity s /\
  users (order_generator_loop cfg s) = users s /\
  put_queue (order_generator_loop cfg s) = put_queue s /\
  stats (order_generator_loop cfg s) = stats s /\
  log (order_generator_loop cfg s) = log s /\
  now (order_generator_loop cfg s) = now s.
Proof.
  unfold order_generator_loop.
  destruct (expovariate (LAMBDA cfg) (random s)) as [[e|gap] g].
  - simpl; repeat split.
  - apply (timeout_fields gap GeneratorTimeout (set_random g s)).
Qed.

Lemma dispatch_capacity (cfg : Config) (ev : Event) (s s' : State) :
  within_capacity s ->
  dispatch cfg ev s = Running s' \/ dispatch cfg ev s = Stopped s' ->
  within_capacity s'.
Proof.
  intros Hs [H|H]; destruct ev; simpl in H; try discriminate;
    injection H as <-; auto.
  - destruct (order_generator_loop_fields cfg (set_order_id 0 s)) as (Hc & Hu & _).
    unfold within_capacity; rewrite Hc, Hu; exact Hs.
  - match goal with |- within_capacity (order_generator_loop cfg ?t) =>
      destruct (order_generator_loop_fields cfg t) as (Hc & Hu & _) end.
    unfold within_capacity; rewrite Hc, Hu; exact Hs.
  - unfold order_start. destruct (prep_time cfg (random s)) as [p g].
    match goal with |- within_capacity (timeout ?d ?e ?t) =>
      destruct (timeout_fields d e t) as (Hc & Hu & _) end.
    unfold within_capacity; rewrite Hc, Hu; exact Hs.
  - unfold order_ready, request. apply trigger_put_capacity. exact Hs.
  - unfold order_assigned. destruct (delivery_time cfg (random s)) as [d g].
    match goal with |- within_capacity (timeout ?d ?e ?t) =>
      destruct (timeout_fields d e t) as (Hc & Hu & _) end.
    unfold within_capacity; rewrite Hc, Hu; exact Hs.
  - unfold order_complete, within_capacity in *; simpl.
    pose proof (remove_request_length (req_order_id r) (users s)). lia.
  - now apply trigger_put_capacity.
Qed.

Lemma setup_capacity (cfg : Config) (n : Z) (g : rng_state) (s0 : State) :
  setup cfg n g = inr s0 ->
  capacity s0 = n /\ (0 < n)%Z /\ users s0 = [] /\ put_queue s0 = [] /\
  stats s0 = [] /\ log s0 = [] /\ now s0 == 0.
Proof.
  unfold setup. destruct (Z.leb_spec n 0); [discriminate|].
  destruct (Qle_bool (SIM_TIME cfg) _); [discriminate|].
  intros E; injection E as <-; simpl. repeat split; auto; reflexivity.
Qed.

(** The state returned by [simulate] is reachable from the state built by
    [setup]. *)
Lemma simulate_reachable (cfg : Config) (fuel : nat) (n : Z) (g : rng_state)
    (s : State) :
  simulate cfg fuel n g = Returned s ->
  exists s0, setup cfg n g = inr s0 /\ reachable cfg s0 s.
Proof.
  unfold simulate. destruct (setup cfg n g) as [e|s0]; [discriminate|].
  intros H. exists s0. split; [reflexivity|]. eapply run_reachable; eauto.
Qed.

(** C1. In every state reached by a run with [num_drivers] drivers, the
    number of requests holding a driver ([users] of the resource) lies
    between 0 and the capacity given to the resource. *)
Theorem held_within_capacity (cfg : Config) (num_drivers : Z) (g : rng_state)
    (s0 s : State) :
  setup cfg num_drivers g = inr s0 ->
  reachable cfg s0 s ->
  capacity s = num_drivers /\
  (0 <= Z.of_nat (length (users s)) <= num_drivers)%Z.
Proof.
  intros Hsetup Hreach.
  destruct (setup_capacity _ _ _ _ Hsetup) as (Hc & Hn & Hu & _).
  assert (capacity s = num_drivers /\ within_capacity s) as [Hcs Hw].
  { apply (reachable_ind_inv cfg
             (fun t => capacity t = num_drivers /\ within_capacity t) s0);
      [ | | exact Hreach].
    - split; [exact Hc|]. unfold within_capacity; rewrite Hu, Hc; simpl; lia.
    - intros t t' [Hct Hwt] Hst.
      destruct (step_to_dispatch _ _ _ Hst) as (x & q & _ & Hd).
      assert (Hw' : within_capacity t')
        by (eapply dispatch_capacity; [|exact Hd]; exact Hwt).
      split; [|exact Hw'].
      rewrite (dispatch_capacity_eq _ _ _ _ Hd); exact Hct. }
  unfold within_capacity in Hw; rewrite Hcs in Hw; auto.
Qed.

(** *** Time stamps *)

Lemma entry_lt_true_due (a b : Scheduled) :
  entry_lt a b = true -> due a <= due b.
Proof.
  unfold entry_lt. destruct (Qcompare_spec (due a) (due b)); intros;
    try discriminate; lra.
Qed.

Lemma entry_lt_false_due (a b : Scheduled) :
  entry_lt a b = false -> due b <= due a.
Proof.
  unfold entry_lt. destruct (Qcompare_spec (due a) (due b)); intros;
    try discriminate; lra.
Qed.

Lemma heappop_le (q q' : list Scheduled) (x y : Scheduled) :
  heappop q = Some (x, q') -> In y q -> due x <= due y.
Proof.
  revert x q' y; induction q as [|z q IH]; intros x q' y; simpl; [discriminate|].
  destruct (heappop q) as [[m r]|] eqn:E.
  - destruct (entry_lt m z) eqn:Hlt; intros H; injection H as <- <-.
    + apply entry_lt_true_due in Hlt.
      intros [<-|Hy]; [exact Hlt|]. eapply IH; eauto.
    + apply entry_lt_false_due in Hlt.
      intros [<-|Hy]; [lra|].
      assert (due m <= due y) by (eapply IH; eauto). lra.
  - destruct q; [|simpl in E; destruct (heappop q) as [[? ?]|];
                   [destruct (entry_lt _ _)|]; discriminate].
    intros H; injection H as <- <-. intros [<-|[]]. lra.
Qed.

Lemma record_ok_app (l l' : list Obs) (rec : OrderRecord) :
  record_ok l rec -> record_ok (l ++ l') rec.
Proof.
  intros (a & r & d & c & Hin & H); exists a, r, d, c; split; [|exact H].
  apply in_or_app; now left.
Qed.

Lemma timing_schedule (prio : nat) (d : Q) (ev : Event) (s : State) :
  timing_inv s -> 0 <= d -> event_ok (now s + d) ev ->
  timing_inv (schedule prio d ev s).
Proof.
  intros [Hq Hp Hl Hs] Hd Hev; constructor; simpl; auto.
  apply Forall_app; split; [exact Hq|].
  constructor; [|constructor]. split; simpl; [lra | exact Hev].
Qed.

Lemma timing_set_random (g : rng_state) (s : State) :
  timing_inv s -> timing_inv (set_random g s).
Proof. intros [Hq Hp Hl Hs]; constructor; simpl; auto. Qed.

Lemma timing_set_order_id (n : Z) (s : State) :
  timing_inv s -> timing_inv (set_order_id n s).
Proof. intros [Hq Hp Hl Hs]; constructor; simpl; auto. Qed.

Lemma timing_set_resource (us pq : list Request) (o : Obs) (s : State) :
  timing_inv s -> Forall (fun r => request_ok r (now s)) pq -> obs_ok o ->
  timing_inv (set_resource us pq o s).
Proof.
  intros [Hq Hp Hl Hs] Hpq Ho; constructor; simpl; auto.
  - apply Forall_app; split; auto.
  - eapply Forall_impl; [|exact Hs]. intros rec; apply record_ok_app.
Qed.

Lemma timing_timeout (d : Q) (ev : Event) (s : State) :
  timing_inv s -> (0 <= d -> event_ok (now s + d) ev) ->
  timing_inv (timeout d ev s).
Proof.
  intros Hs Hev. unfold timeout, fail_process.
  destruct (Qlt_le_dec d 0).
  - apply timing_schedule; simpl; auto; lra.
  - apply timing_schedule; auto.
Qed.

Lemma timing_trigger_put (s : State) :
  timing_inv s -> timing_inv (trigger_put s).
Proof.
  intros Hs. unfold trigger_put.
  destruct (put_queue s) as [|r rest] eqn:E; [exact Hs|].
  destruct (Z.of_nat (length (users s)) <? capacity s)%Z; [|exact Hs].
  pose proof (inv_put_queue s Hs) as Hp. rewrite E in Hp.
  inversion Hp as [|? ? Hr Hrest]; subst.
  apply timing_schedule; [ | lra | ].
  - apply timing_set_resource; simpl; auto.
  - simpl. destruct Hr as [H1 H2]. split; [exact H1 | lra].
Qed.

Lemma timing_order_generator_loop (cfg : Config) (s : State) :
  timing_inv s -> timing_inv (order_generator_loop cfg s).
Proof.
  intros Hs. unfold order_generator_loop.
  destruct (expovariate (LAMBDA cfg) (random s)) as [[e|gap] g].
  - apply timing_schedule; simpl; auto using timing_set_random; lra.
  - apply timing_timeout; simpl; auto using timing_set_random.
Qed.

Lemma timing_dispatch (cfg : Config) (ev : Event) (s s' : State) :
  timing_inv s -> event_ok (now s) ev ->
  dispatch cfg ev s = Running s' \/ dispatch cfg ev s = Stopped s' ->
  timing_inv s'.
Proof.
  intros Hs Hev [H|H]; destruct ev; simpl in H; try discriminate;
    injection H as <-; auto.
  - apply timing_order_generator_loop, timing_set_order_id, Hs.
  - apply timing_order_generator_loop, timing_schedule; simpl;
      auto using timing_set_order_id; lra.
  - unfold order_start.
    pose proof (prep_time_floor cfg (random s)) as Hp.
    destruct (prep_time cfg (random s)) as [p g]; simpl in Hp.
    apply timing_timeout; simpl; auto using timing_set_random.
    intros _; lra.
  - unfold order_ready, request. simpl in Hev.
    apply timing_trigger_put, timing_set_resource; simpl; auto.
    apply Forall_app; split; [apply (inv_put_queue s Hs)|].
    constructor; [|constructor]. split; simpl; lra.
  - unfold order_assigned.
    pose proof (delivery_time_floor cfg (random s)) as Hp.
    destruct (delivery_time cfg (random s)) as [d g]; simpl in Hp.
    apply timing_timeout; simpl; auto using timing_set_random.
    intros _. simpl in Hev. destruct Hev as [H1 H2].
    repeat split; auto; lra.
  - unfold order_complete, release.
    simpl in Hev. destruct Hev as ([H1 H2] & H3 & H4).
    apply timing_schedule; simpl; [ | lra | exact I].
    apply timing_schedule; simpl; [ | lra | exact I].
    apply timing_set_resource; simpl; [ | apply (inv_put_queue s Hs) | exact I].
    destruct Hs as [Hq Hp Hl Hst]; constructor; simpl; auto.
    + apply Forall_app; split; [exact Hl|].
      constructor; [|constructor]. simpl. repeat split; auto.
    + apply Forall_app; split.
      * eapply Forall_impl; [|exact Hst]. intros rec; apply record_ok_app.
      * constructor; [|constructor].
        exists (req_arrival_time r), (req_ready_time r), driver_assigned_time,
          (now s); simpl.
        split; [apply in_or_app; right; now left|]. split; auto.
  - now apply timing_trigger_put.
Qed.

Lemma timing_set_clock (s : State) (x : Scheduled) (q : list Scheduled) :
  timing_inv s -> heappop (queue s) = Some (x, q) ->
  timing_inv (set_clock (due x) q s) /\ event_ok (due x) (event x).
Proof.
  intros [Hq Hp Hl Hs] Hpop.
  destruct (heappop_In _ _ _ Hpop) as [Hx Hincl].
  rewrite Forall_forall in Hq.
  destruct (Hq x Hx) as [Hnow Hev].
  split; [|exact Hev].
  constructor; simpl; auto.
  - apply Forall_forall. intros y Hy. apply Hincl in Hy.
    destruct (Hq y Hy) as [_ Hy2]. split; [|exact Hy2].
    eapply heappop_le; eauto.
  - eapply Forall_impl; [|exact Hp]. intros r [H1 H2]; split; [exact H1|lra].
Qed.

Lemma timing_step (cfg : Config) (s s' : State) :
  timing_inv s -> step_to cfg s s' -> timing_inv s'.
Proof.
  intros Hs Hst.
  destruct (step_to_dispatch _ _ _ Hst) as (x & q & Hpop & Hd).
  destruct (timing_set_clock s x q Hs Hpop) as [Hs1 Hev].
  eapply timing_dispatch; [exact Hs1 | exact Hev | exact Hd].
Qed.

Lemma timing_setup (cfg : Config) (n : Z) (g : rng_state) (s0 : State) :
  setup cfg n g = inr s0 -> timing_inv s0.
Proof.
  unfold setup. destruct (n <=? 0)%Z; [discriminate|].
  simpl. destruct (Qle_bool (SIM_TIME cfg) 0) eqn:E; [discriminate|].
  intros H; injection H as <-.
  assert (Hlt : 0 < SIM_TIME cfg).
  { destruct (Qlt_le_dec 0 (SIM_TIME cfg)) as [Hl|Hl]; [exact Hl|].
    apply Qle_bool_iff in Hl. congruence. }
  constructor; simpl; auto.
  constructor; [split; simpl; [lra|exact I]|].
  constructor; [split; simpl; [lra|exact I]|constructor].
Qed.

Lemma timing_reachable (cfg : Config) (n : Z) (g : rng_state) (s0 s : State) :
  setup cfg n g = inr s0 -> reachable cfg s0 s -> timing_inv s.
Proof.
  intros Hsetup. apply reachable_ind_inv.
  - eapply timing_setup; eauto.
  - intros t t'; apply timing_step.
Qed.

(** The time stamps behind a record of [stats]. *)
Lemma record_times (cfg : Config) (n : Z) (g : rng_state) (s0 s : State)
    (rec : OrderRecord) :
  setup cfg n g = inr s0 -> reachable cfg s0 s -> In rec (stats s) ->
  exists a r d c,
    In (ObsCompleted (Order_ID rec) a r d c) (log s) /\
    Wait_For_Driver rec = d - r /\
    Total_Delivery_Time rec = c - a /\
    (a + 5 <= r /\ r <= d /\ d + 5 <= c).
Proof.
  intros Hsetup Hreach Hin.
  pose proof (timing_reachable _ _ _ _ _ Hsetup Hreach) as Hinv.
  pose proof (inv_stats s Hinv) as Hst. pose proof (inv_log s Hinv) as Hl.
  rewrite Forall_forall in Hst, Hl.
  destruct (Hst _ Hin) as (a & r & d & c & Ho & Hw & Ht).
  specialize (Hl _ Ho). simpl in Hl.
  exists a, r, d, c. auto.
Qed.

(** C2. Every completed order has its four time stamps in stage order:
    arrival, ready, driver assigned, completion. *)
Theorem stage_times_ordered (cfg : Config) (num_drivers : Z) (g : rng_state)
    (s0 s : State) (id : Z) (arrival ready assigned completion : Q) :
  setup cfg num_drivers g = inr s0 ->
  reachable cfg s0 s ->
  In (ObsCompleted id arrival ready assigned completion) (log s) ->
  arrival <= ready /\ ready <= assigned /\ assigned <= completion.
Proof.
  intros Hsetup Hreach Hin.
  pose proof (inv_log s (timing_reachable _ _ _ _ _ Hsetup Hreach)) as Hl.
  rewrite Forall_forall in Hl. specialize (Hl _ Hin). simpl in Hl.
  lra.
Qed.


(** C9. The preparation time and the delivery time drawn from any generator
    state are at least 5, hence positive, and they are the delays for which
    [order] is suspended in [prepare_order] and in [deliver_order]. *)
Theorem durations_at_least_5 (cfg : Config) (g : rng_state) :
  5 <= fst (prep_time cfg g) /\ 5 <= fst (delivery_time cfg g) /\
  0 < fst (prep_time cfg g) /\ 0 < fst (delivery_time cfg g) /\
  (forall id s,
     order_start cfg id s =
     schedule NORMAL (fst (prep_time cfg (random s))) (PrepTimeout id (now s))
       (set_random (snd (prep_time cfg (random s))) s)) /\
  (forall r s,
     order_assigned cfg r s =
     schedule NORMAL (fst (delivery_time cfg (random s)))
       (DeliveryTimeout r (now s) (now s - req_ready_time r))
       (set_random (snd (delivery_time cfg (random s))) s)).
Proof.
  pose proof (prep_time_floor cfg g) as Hp.
  pose proof (delivery_time_floor cfg g) as Hd.
  repeat split; try lra.
  - intros id s. unfold order_start, timeout.
    pose proof (prep_time_floor cfg (random s)) as Hs.
    destruct (prep_time cfg (random s)) as [p g']; simpl in *.
    destruct (Qlt_le_dec p 0); [lra|reflexivity].
  - intros r s. unfold order_assigned, timeout.
    pose proof (delivery_time_floor cfg (random s)) as Hs.
    destruct (delivery_time cfg (random s)) as [d g']; simpl in *.
    destruct (Qlt_le_dec d 0); [lra|reflexivity].
Qed.


(** *** First come, first served *)

Lemma StronglySorted_snoc {A : Type} (P : A -> A -> Prop) (l : list A) (x : A) :
  StronglySorted P l -> Forall (fun y => P y x) l -> StronglySorted P (l ++ [x]).
Proof.
  induction 1 as [|y l Hs IH Hy]; intros Hx; simpl.
  - constructor; constructor.
  - inversion Hx; subst. constructor; [now apply IH|].
    apply Forall_app; split; [exact Hy|]. constructor; [assumption|constructor].
Qed.

Lemma StronglySorted_nth {A : Type} (P : A -> A -> Prop) (l : list A) :
  StronglySorted P l ->
  forall i j x y, (i < j)%nat ->
    nth_error l i = Some x -> nth_error l j = Some y -> P x y.
Proof.
  induction 1 as [|z l Hs IH Hz]; intros i j x y Hij Hi Hj.
  - destruct i; discriminate.
  - destruct j as [|j]; [lia|]. simpl in Hj.
    destruct i as [|i]; simpl in Hi.
    + injection Hi as <-. rewrite Forall_forall in Hz.
      apply Hz. eapply nth_error_In; eauto.
    + eapply IH; [|eauto|eauto]. lia.
Qed.

Lemma fifo_frame (s s' : State) :
  put_queue s' = put_queue s -> log s' = log s -> now s' = now s ->
  fifo_inv s -> fifo_inv s'.
Proof.
  intros Hp Hl Hn [H1 H2 H3 H4 H5]; constructor; rewrite ?Hp, ?Hl, ?Hn; auto.
Qed.

Lemma fifo_timeout (d : Q) (ev : Event) (s : State) :
  fifo_inv s -> fifo_inv (timeout d ev s).
Proof.
  destruct (timeout_fields d ev s) as (_ & _ & Hp & _ & Hl & Hn).
  now apply fifo_frame.
Qed.

Lemma fifo_order_generator_loop (cfg : Config) (s : State) :
  fifo_inv s -> fifo_inv (order_generator_loop cfg s).
Proof.
  destruct (order_generator_loop_fields cfg s) as (_ & _ & Hp & _ & Hl & Hn).
  now apply fifo_frame.
Qed.

Lemma past_snoc (l : list (Z * Q)) (id : Z) (t : Q) :
  Forall (fun x => snd x <= t) l -> Forall (fun x => snd x <= t) (l ++ [(id, t)]).
Proof.
  intros H. apply Forall_app; split; [exact H|].
  constructor; [simpl; lra|constructor].
Qed.

Lemma fifo_trigger_put (s : State) : fifo_inv s -> fifo_inv (trigger_put s).
Proof.
  intros [H1 H2 H3 H4 H5]. unfold trigger_put.
  destruct (put_queue s) as [|r rest] eqn:E; [constructor; rewrite ?E; auto|].
  destruct (Z.of_nat (length (users s)) <? capacity s)%Z;
    [|constructor; rewrite ?E; auto].
  constructor; simpl; unfold requests, grants in *;
    rewrite !flat_map_app; simpl; rewrite ?app_nil_r; auto.
  - rewrite H1, map_app, <- app_assoc. reflexivity.
  - apply StronglySorted_snoc; [exact H2|exact H3].
  - now apply past_snoc.
Qed.

Lemma fifo_dispatch (cfg : Config) (ev : Event) (s s' : State) :
  fifo_inv s ->
  dispatch cfg ev s = Running s' \/ dispatch cfg ev s = Stopped s' ->
  fifo_inv s'.
Proof.
  intros Hs [H|H]; destruct ev; simpl in H; try discriminate;
    injection H as <-; auto.
  - apply fifo_order_generator_loop. revert Hs; now apply fifo_frame.
  - apply fifo_order_generator_loop. revert Hs; now apply fifo_frame.
  - unfold order_start. destruct (prep_time cfg (random s)) as [p g].
    apply fifo_timeout. revert Hs; now apply fifo_frame.
  - unfold order_ready, request. apply fifo_trigger_put.
    destruct Hs as [H1 H2 H3 H4 H5].
    constructor; simpl; unfold requests, grants in *;
      rewrite !flat_map_app; simpl; rewrite ?app_nil_r; auto.
    + rewrite !map_app, H1, app_assoc. reflexivity.
    + apply StronglySorted_snoc; [exact H4|exact H5].
    + now apply past_snoc.
  - unfold order_assigned. destruct (delivery_time cfg (random s)) as [d g].
    apply fifo_timeout. revert Hs; now apply fifo_frame.
  - unfold order_complete, release. destruct Hs as [H1 H2 H3 H4 H5].
    constructor; simpl; unfold requests, grants in *;
      rewrite !flat_map_app; simpl; rewrite ?app_nil_r; auto.
  - now apply fifo_trigger_put.
Qed.

Lemma fifo_step (cfg : Config) (s s' : State) :
  timing_inv s -> fifo_inv s -> step_to cfg s s' -> fifo_inv s'.
Proof.
  intros Ht Hs Hst.
  destruct (step_to_dispatch _ _ _ Hst) as (x & q & Hpop & Hd).
  eapply fifo_dispatch; [|exact Hd].
  destruct (heappop_In _ _ _ Hpop) as [Hx _].
  pose proof (inv_queue s Ht) as Hq. rewrite Forall_forall in Hq.
  destruct (Hq x Hx) as [Hnow _].
  destruct Hs as [H1 H2 H3 H4 H5]; constructor; simpl; auto.
  - eapply Forall_impl; [|exact H3]. simpl; intros y Hy; lra.
  - eapply Forall_impl; [|exact H5]. simpl; intros y Hy; lra.
Qed.

Lemma fifo_reachable (cfg : Config) (n : Z) (g : rng_state) (s0 s : State) :
  setup cfg n g = inr s0 -> reachable cfg s0 s -> fifo_inv s.
Proof.
  intros Hsetup Hreach.
  assert (timing_inv s /\ fifo_inv s) as [_ H]; [|exact H].
  apply (reachable_ind_inv cfg (fun t => timing_inv t /\ fifo_inv t) s0);
    [ | | exact Hreach].
  - split; [eapply timing_setup; eauto|].
    destruct (setup_capacity _ _ _ _ Hsetup) as (_ & _ & _ & Hp & _ & Hl & _).
    constructor; rewrite ?Hp, ?Hl; simpl; auto; constructor.
  - intros t t' [Ht Hf] Hst; split.
    + eapply timing_step; eauto.
    + eapply fifo_step; eauto.
Qed.

(** *** Order numbers *)

Lemma ids_ok_perm (l l' : list Z) (n : Z) :
  Permutation l l' -> ids_ok l n -> ids_ok l' n.
Proof.
  intros Hp [H1 H2]; split.
  - eapply Permutation_NoDup; eauto.
  - eapply Permutation_Forall; eauto.
Qed.

Lemma ids_ok_tail (id : Z) (l : list Z) (n : Z) :
  ids_ok (id :: l) n -> ids_ok l n.
Proof.
  intros [H1 H2]; inversion H1; inversion H2; subst; split; auto.
Qed.

Lemma ids_ok_fresh (l : list Z) (n : Z) :
  ids_ok l n -> ids_ok ((n + 1)%Z :: l) (n + 1)%Z.
Proof.
  intros [H1 H2]; split.
  - constructor; [|exact H1]. intros Hin.
    rewrite Forall_forall in H2. specialize (H2 _ Hin). lia.
  - constructor; [lia|]. eapply Forall_impl; [|exact H2]. simpl; intros; lia.
Qed.

Lemma pending_snoc (q : list Scheduled) (x : Scheduled) :
  pending (q ++ [x]) = pending q ++ pending_id (event x).
Proof.
  unfold pending. rewrite flat_map_app. simpl. rewrite app_nil_r. reflexivity.
Qed.

Lemma pending_perm (q q' : list Scheduled) :
  Permutation q q' -> Permutation (pending q) (pending q').
Proof.
  unfold pending. induction 1; simpl.
  - constructor.
  - now apply Permutation_app_head.
  - rewrite !app_assoc. apply Permutation_app_tail, Permutation_app_comm.
  - etransitivity; eauto.
Qed.

Lemma requests_snoc_request (l : list Obs) (id : Z) (t : Q) :
  requests (l ++ [ObsRequest id t]) = requests l ++ [(id, t)].
Proof. unfold requests. rewrite flat_map_app. reflexivity. Qed.

Lemma requests_snoc_other (l : list Obs) (o : Obs) :
  match o with ObsRequest _ _ => False | _ => True end ->
  requests (l ++ [o]) = requests l.
Proof.
  intros H. unfold requests. rewrite flat_map_app. simpl.
  destruct o; try contradiction; simpl; apply app_nil_r.
Qed.

(** The queue and the counter are left alone or extended by entries that
    resume no order before its request. *)
Lemma ids_frame (s s' : State) (l : list Scheduled) :
  queue s' = queue s ++ l -> pending l = [] ->
  requests (log s') = requests (log s) -> order_id s' = order_id s ->
  ids_inv s -> ids_inv s'.
Proof.
  unfold ids_inv. intros Hq Hl Hr Ho H. rewrite Hq, Hr, Ho.
  unfold pending in *. rewrite flat_map_app, Hl, app_nil_r. exact H.
Qed.

Lemma timeout_queue (d : Q) (ev : Event) (s : State) :
  exists x, queue (timeout d ev s) = queue s ++ [x] /\
            (event x = ev \/ exists e, event x = ProcessFailed e) /\
            order_id (timeout d ev s) = order_id s.
Proof.
  unfold timeout, fail_process.
  destruct (Qlt_le_dec d 0); simpl; eexists; repeat split; simpl; eauto.
Qed.

Lemma order_generator_loop_queue (cfg : Config) (s : State) :
  exists x, queue (order_generator_loop cfg s) = queue s ++ [x] /\
            (event x = GeneratorTimeout \/ exists e, event x = ProcessFailed e) /\
            order_id (order_generator_loop cfg s) = order_id s.
Proof.
  unfold order_generator_loop.
  destruct (expovariate (LAMBDA cfg) (random s)) as [[e|gap] g].
  - simpl. eexists; repeat split; simpl; eauto.
  - apply (timeout_queue gap GeneratorTimeout (set_random g s)).
Qed.

Lemma resumed_not_pending (ev : Event) :
  ev = GeneratorTimeout \/ (exists e, ev = ProcessFailed e) ->
  pending_id ev = [] /\ ev <> InitializeGenerator.
Proof.
  intros [->|[e ->]]; split; simpl; congruence.
Qed.

Lemma trigger_put_ids (s : State) : ids_inv s -> ids_inv (trigger_put s).
Proof.
  unfold trigger_put.
  destruct (put_queue s) as [|r rest]; [auto|].
  destruct (Z.of_nat (length (users s)) <? capacity s)%Z; [|auto].
  match goal with |- _ -> ids_inv (schedule _ _ ?e ?t) =>
    apply (ids_frame s _ [{| due := now t + 0; priority := NORMAL;
                             eid := next_eid t; event := e |}]) end;
    simpl; auto.
  apply requests_snoc_other. exact I.
Qed.

Lemma perm_move (id : Z) (l l' : list Z) :
  Permutation (id :: l ++ l') ((l ++ [id]) ++ l').
Proof.
  rewrite <- app_assoc. simpl. apply Permutation_middle.
Qed.

Lemma perm_end (id : Z) (l l' : list Z) :
  Permutation (id :: l ++ l') (l ++ l' ++ [id]).
Proof.
  rewrite app_assoc. apply Permutation_cons_append.
Qed.

(** The order resumed by the popped event counts as pending until the
    callbacks have run. *)
Lemma ids_dispatch (cfg : Config) (ev : Event) (s s' : State) :
  ev <> InitializeGenerator ->
  ids_ok (pending_id ev ++ pending (queue s) ++ map fst (requests (log s)))
    (order_id s) ->
  dispatch cfg ev s = Running s' \/ dispatch cfg ev s = Stopped s' ->
  ids_inv s'.
Proof.
  intros Hev Hs [H|H]; destruct ev; simpl in H; try discriminate;
    try congruence; injection H as <-; simpl in Hs; auto.
  - (* GeneratorTimeout *)
    match goal with |- ids_inv (order_generator_loop cfg ?t) =>
      destruct (order_generator_loop_queue cfg t) as (x & Hq & Hx & Ho);
      destruct (order_generator_loop_fields cfg t) as (_ & _ & _ & _ & Hl & _)
    end.
    apply resumed_not_pending in Hx. destruct Hx as [Hx _].
    unfold ids_inv. rewrite Hq, Hl, Ho, pending_snoc, Hx, app_nil_r. simpl.
    rewrite pending_snoc. simpl.
    eapply ids_ok_perm; [apply perm_move|]. now apply ids_ok_fresh.
  - (* InitializeOrder *)
    unfold order_start. destruct (prep_time cfg (random s)) as [p g].
    match goal with |- ids_inv (timeout ?d ?e ?t) =>
      destruct (timeout_queue d e t) as (x & Hq & Hx & Ho);
      destruct (timeout_fields d e t) as (_ & _ & _ & _ & Hl & _)
    end.
    unfold ids_inv. rewrite Hq, Hl, Ho, pending_snoc. simpl.
    destruct Hx as [Hx|[e Hx]]; rewrite Hx; simpl.
    + eapply ids_ok_perm; [apply perm_move|]. exact Hs.
    + rewrite app_nil_r. eapply ids_ok_tail; eauto.
  - (* PrepTimeout *)
    unfold order_ready, request. apply trigger_put_ids.
    unfold ids_inv; simpl. rewrite requests_snoc_request, map_app. simpl.
    eapply ids_ok_perm; [apply perm_end|]. exact Hs.
  - (* RequestGranted *)
    unfold order_assigned. destruct (delivery_time cfg (random s)) as [d g].
    match goal with |- ids_inv (timeout ?d ?e ?t) =>
      destruct (timeout_queue d e t) as (x & Hq & Hx & Ho);
      destruct (timeout_fields d e t) as (_ & _ & _ & _ & Hl & _)
    end.
    unfold ids_inv. rewrite Hq, Hl, Ho, pending_snoc. simpl.
    destruct Hx as [Hx|[e Hx]]; rewrite Hx; simpl; rewrite app_nil_r; exact Hs.
  - (* DeliveryTimeout *)
    unfold order_complete, release, ids_inv; simpl.
    rewrite !pending_snoc; simpl. rewrite !app_nil_r.
    rewrite !requests_snoc_other by exact I. exact Hs.
  - (* ReleaseDone *)
    now apply trigger_put_ids.
Qed.

Lemma dispatch_after_start (cfg : Config) (ev : Event) (s s' : State) :
  after_start s ->
  dispatch cfg ev s = Running s' \/ dispatch cfg ev s = Stopped s' ->
  after_start s'.
Proof.
  unfold after_start.
  intros Hs [H|H]; destruct ev; simpl in H; try discriminate;
    injection H as <-; split_ops; auto;
    repeat (apply Forall_app; split; [|constructor; [simpl; discriminate|constructor]]);
    auto.
Qed.

Lemma numbering_step (cfg : Config) (s s' : State) :
  numbering_inv s -> step_to cfg s s' -> numbering_inv s'.
Proof.
  intros Hs Hst.
  destruct (step_to_dispatch _ _ _ Hst) as (x & q & Hpop & Hd).
  destruct Hs as [[Hlog Hq]|[Hafter Hids]].
  - (* the generator has not been resumed yet *)
    assert (Hcase :
      (event x = InitializeGenerator /\ pending q = [] /\
       Forall (fun y => event y <> InitializeGenerator) q) \/
      (event x = Until /\ exists y, q = [y] /\ event y = InitializeGenerator)).
    { destruct Hq as [(y & u & Hq & Hy & Hu)|(y & Hq & Hy)];
        rewrite Hq in Hpop; simpl in Hpop.
      - destruct (entry_lt u y); injection Hpop as <- <-.
        + right. split; [exact Hu|]. exists y; auto.
        + left. split; [exact Hy|]. unfold pending; simpl. rewrite Hu.
          split; [reflexivity|]. constructor; [congruence|constructor].
      - injection Hpop as <- <-. left. repeat split; auto. }
    destruct Hcase as [(Hx & Hp & Hno)|(Hx & y & Hq' & Hy)].
    + right. rewrite Hx in Hd. simpl in Hd.
      destruct Hd as [Hd|Hd]; [|discriminate]. injection Hd as <-.
      match goal with |- after_start (order_generator_loop cfg ?t) /\ _ =>
        destruct (order_generator_loop_queue cfg t) as (z & Hz & Hpz & Ho);
        destruct (order_generator_loop_fields cfg t) as (_ & _ & _ & _ & Hl & _)
      end.
      apply resumed_not_pending in Hpz. destruct Hpz as [Hpz Hnz].
      split.
      * unfold after_start. rewrite Hz. simpl.
        apply Forall_app; split; [exact Hno|].
        constructor; [exact Hnz|constructor].
      * unfold ids_inv. rewrite Hz, Hl, Ho, pending_snoc, Hpz. simpl.
        rewrite Hp, Hlog. simpl. split; constructor.
    + left. rewrite Hx in Hd. simpl in Hd.
      destruct Hd as [Hd|Hd]; [discriminate|]. injection Hd as <-.
      split; [exact Hlog|]. right. exists y. auto.
  - (* the generator is running *)
    right.
    assert (Hperm := heappop_perm _ _ _ Hpop).
    assert (Hx : event x <> InitializeGenerator).
    { unfold after_start in Hafter. rewrite Forall_forall in Hafter.
      apply Hafter. apply (Permutation_in _ (Permutation_sym Hperm)). now left. }
    split.
    + eapply dispatch_after_start; [|exact Hd].
      unfold after_start in *. simpl.
      rewrite Forall_forall in *. intros y Hy. apply Hafter.
      apply (Permutation_in _ (Permutation_sym Hperm)). now right.
    + eapply ids_dispatch; [exact Hx| |exact Hd]. simpl.
      unfold ids_inv in Hids. eapply ids_ok_perm; [|exact Hids].
      rewrite app_assoc. apply Permutation_app_tail.
      apply (pending_perm _ _ Hperm).
Qed.

Lemma numbering_setup (cfg : Config) (n : Z) (g : rng_state) (s0 : State) :
  setup cfg n g = inr s0 -> numbering_inv s0.
Proof.
  unfold setup. destruct (n <=? 0)%Z; [discriminate|].
  destruct (Qle_bool (SIM_TIME cfg) _); [discriminate|].
  intros H; injection H as <-. left. split; [reflexivity|].
  left. simpl. eexists; eexists; repeat split.
Qed.

Lemma requests_unique (cfg : Config) (n : Z) (g : rng_state) (s0 s : State) :
  setup cfg n g = inr s0 -> reachable cfg s0 s ->
  NoDup (map fst (requests (log s))).
Proof.
  intros Hsetup Hreach.
  assert (H : numbering_inv s).
  { revert Hreach. apply reachable_ind_inv.
    - eapply numbering_setup; eauto.
    - intros t t'; apply numbering_step. }
  destruct H as [[Hlog _]|[_ [Hnd _]]].
  - rewrite Hlog. constructor.
  - apply NoDup_app_remove_l in Hnd. exact Hnd.
Qed.

(** C4. Drivers are granted in the order of the requests.  Let order [a]
    make its request (the [i]-th of the run, at time [ra]) before order [b]
    (the [j]-th, at time [rb]): at an earlier time, or at the same time and
    earlier in the order of processing.  If [b] has been granted a driver, at
    time [tb], then [a] has been granted one at a time [ta] that is not
    later; the grants are the [i]-th and the [j]-th of the run. *)
Theorem grants_in_request_order (cfg : Config) (num_drivers : Z) (g : rng_state)
    (s0 s : State) (i j : nat) (a b : Z) (ra rb tb : Q) :
  setup cfg num_drivers g = inr s0 ->
  reachable cfg s0 s ->
  nth_error (requests (log s)) i = Some (a, ra) ->
  nth_error (requests (log s)) j = Some (b, rb) ->
  ra < rb \/ (ra == rb /\ (i < j)%nat) ->
  In (b, tb) (grants (log s)) ->
  exists ta,
    nth_error (grants (log s)) i = Some (a, ta) /\
    nth_error (grants (log s)) j = Some (b, tb) /\
    ta <= tb.
Proof.
  intros Hsetup Hreach Hi Hj Hord Hg.
  destruct (fifo_reachable _ _ _ _ _ Hsetup Hreach) as [H1 H2 _ H4 _].
  pose proof (requests_unique _ _ _ _ _ Hsetup Hreach) as Hnd.
  (* the request of [a] comes first in the log *)
  assert (Hij : (i < j)%nat).
  { destruct Hord as [Hlt|[_ Hlt]]; [|exact Hlt].
    destruct (Nat.lt_trichotomy i j) as [Hij|[Hij|Hij]]; [exact Hij| |].
    - subst j. rewrite Hi in Hj. injection Hj as _ Hr. rewrite Hr in Hlt. lra.
    - pose proof (StronglySorted_nth _ _ H4 j i _ _ Hij Hj Hi) as Hle.
      unfold not_later in Hle; simpl in Hle. lra. }
  (* a grant is at the position of its request *)
  assert (Hmap : forall k x, nth_error (grants (log s)) k = Some x ->
                   nth_error (map fst (requests (log s))) k = Some (fst x)).
  { intros k x Hk. rewrite H1, nth_error_app1.
    - rewrite nth_error_map, Hk. reflexivity.
    - rewrite length_map. apply nth_error_Some; congruence. }
  destruct (In_nth_error _ _ Hg) as [k Hk].
  assert (k = j).
  { rewrite NoDup_nth_error in Hnd. apply Hnd.
    - apply nth_error_Some. rewrite (Hmap _ _ Hk). discriminate.
    - rewrite (Hmap _ _ Hk), nth_error_map, Hj. reflexivity. }
  subst k.
  assert (Hlen : (j < length (grants (log s)))%nat)
    by (apply nth_error_Some; congruence).
  destruct (nth_error (grants (log s)) i) as [[a' ta]|] eqn:Ei.
  - pose proof (Hmap _ _ Ei) as Ha. rewrite nth_error_map, Hi in Ha.
    simpl in Ha. injection Ha as ->.
    exists ta; repeat split; auto.
    apply (StronglySorted_nth _ _ H2 i j (a', ta) (b, tb) Hij Ei Hk).
  - apply nth_error_None in Ei. lia.
Qed.

(** *** Reproducibility *)

(** C5. A run is determined by the configuration (which holds the seed) and
    the number of drivers: whatever state earlier calls left the generator
    in, the final state, and with it the sequence of records and the
    summary, is the same. *)
Theorem same_seed_same_records (cfg : Config) (fuel : nat) (num_drivers : Z)
    (g1 g2 : rng_state) :
  simulate cfg fuel num_drivers g1 = simulate cfg fuel num_drivers g2 /\
  run_simulation cfg fuel num_drivers g1 = run_simulation cfg fuel num_drivers g2.
Proof.
  assert (H : simulate cfg fuel num_drivers g1 = simulate cfg fuel num_drivers g2).
  { unfold simulate. replace (setup cfg num_drivers g2) with (setup cfg num_drivers g1);
      [reflexivity|].
    unfold setup. destruct (num_drivers <=? 0)%Z; reflexivity. }
  split; [exact H|]. unfold run_simulation. rewrite H. reflexivity.
Qed.

(** *** Capacity zero *)

(** C6 (as the code has it). With no driver the resource cannot be built:
    the run raises [ValueError] before any event is scheduled, for every
    configuration and every bound on the number of steps. *)
Theorem zero_capacity_raises (cfg : Config) (fuel : nat) (g : rng_state) :
  setup cfg 0 g = inl ValueError /\
  simulate cfg fuel 0 g = Raised ValueError /\
  run_simulation cfg fuel 0 g = Raised ValueError.
Proof.
  repeat split.
Qed.

(** An empty sequence of records has no summary either. *)
Lemma summarize_empty (num_drivers : Z) : summarize num_drivers [] = Raised KeyError.
Proof. reflexivity. Qed.

(** *** More drivers *)







(** *** What is checked before the run *)

Lemma dispatch_sla (cfg : Config) (ev : Event) (s s' : State) :
  sla_inv cfg s ->
  dispatch cfg ev s = Running s' \/ dispatch cfg ev s = Stopped s' ->
  sla_inv cfg s'.
Proof.
  unfold sla_inv.
  intros Hs [H|H]; destruct ev; simpl in H; try discriminate;
    injection H as <-; split_ops; auto.
  apply Forall_app; split; [exact Hs|]. constructor; [reflexivity|constructor].
Qed.

Lemma sla_reachable (cfg : Config) (n : Z) (g : rng_state) (s0 s : State) :
  setup cfg n g = inr s0 -> reachable cfg s0 s -> sla_inv cfg s.
Proof.
  intros Hsetup. apply reachable_ind_inv.
  - destruct (setup_capacity _ _ _ _ Hsetup) as (_ & _ & _ & _ & Hst & _).
    unfold sla_inv; rewrite Hst; constructor.
  - intros t t' Ht Hst.
    destruct (step_to_dispatch _ _ _ Hst) as (x & q & _ & Hd).
    eapply dispatch_sla; [|exact Hd]. exact Ht.
Qed.

(** *** The arrival rate is looked at by the first draw only *)

Lemma negative_gap (e l : Q) : 0 < e -> l < 0 -> e / l < 0.
Proof.
  intros He Hl.
  assert (H : e / l == - (e / - l)) by (field; lra).
  rewrite H.
  assert (0 < e / - l); [|lra].
  apply Qlt_shift_div_l; lra.
Qed.

Lemma entry_lt_earlier (a b : Scheduled) : due a < due b -> entry_lt a b = true.
Proof.
  intros H. unfold entry_lt.
  destruct (Qcompare_spec (due a) (due b)); [lra|reflexivity|lra].
Qed.

Lemma entry_lt_later (a b : Scheduled) : due b < due a -> entry_lt a b = false.
Proof.
  intros H. unfold entry_lt.
  destruct (Qcompare_spec (due a) (due b)); [lra|lra|reflexivity].
Qed.

Lemma heappop_two_first (x y : Scheduled) :
  entry_lt y x = false -> heappop [x; y] = Some (x, [y]).
Proof.
  intros H. simpl. rewrite H. reflexivity.
Qed.

Lemma heappop_two_second (x y : Scheduled) :
  entry_lt y x = true -> heappop [x; y] = Some (y, [x]).
Proof.
  intros H. simpl. rewrite H. reflexivity.
Qed.

(** A failed process stops the run when only a later event is pending. *)
Lemma run_fail_process (cfg : Config) (fuel : nat) (e : exn) (s : State)
    (u : Scheduled) :
  queue s = [u] -> now s < due u ->
  run cfg (S fuel) (fail_process e s) = Raised e.
Proof.
  intros Hq Hnow. simpl. unfold step, fail_process. simpl. rewrite Hq.
  simpl app. rewrite heappop_two_second; simpl; auto.
  apply entry_lt_earlier; simpl; lra.
Qed.

(** The first step of a run resumes the arrival generator at time 0, with
    the [until] event as the only other entry of the queue. *)
Lemma first_step (cfg : Config) (fuel : nat) (n : Z) (g : rng_state) :
  (0 < n)%Z -> 0 < SIM_TIME cfg ->
  exists s u,
    simulate cfg (S fuel) n g = run cfg fuel (order_generator_loop cfg s) /\
    queue s = [u] /\ now s < due u /\
    random s = seed (RANDOM_SEED cfg).
Proof.
  intros Hn Ht. unfold simulate, setup, fresh_state.
  destruct (Z.leb_spec n 0); [lia|].
  cbn [now schedule].
  destruct (Qle_bool (SIM_TIME cfg) 0) eqn:E;
    [apply Qle_bool_iff in E; lra|].
  cbn [run]. unfold step. cbn [queue schedule app now next_eid].
  rewrite heappop_two_first by (apply entry_lt_later; simpl; lra).
  cbn [event dispatch due].
  eexists; eexists; split; [reflexivity|].
  cbn [queue now due eid next_eid random set_order_id set_clock schedule].
  split; [reflexivity|]. cbn [due eid].
  split; [lra|reflexivity].
Qed.

Lemma loop_zero_rate (cfg : Config) (s : State) :
  ARRIVAL_RATE cfg == 0 ->
  order_generator_loop cfg s =
  fail_process ZeroDivisionError
    (set_random (snd (std_exponential (random s))) s).
Proof.
  intros H. unfold order_generator_loop, expovariate.
  destruct (std_exponential (random s)) as [e g'].
  assert (Hl : Qeq_bool (LAMBDA cfg) 0 = true).
  { apply Qeq_bool_iff. unfold LAMBDA. rewrite H. reflexivity. }
  rewrite Hl. reflexivity.
Qed.

Lemma loop_negative_rate (cfg : Config) (s : State) :
  ARRIVAL_RATE cfg < 0 -> 0 < fst (std_exponential (random s)) ->
  order_generator_loop cfg s =
  fail_process ValueError (set_random (snd (std_exponential (random s))) s).
Proof.
  intros H. unfold order_generator_loop, expovariate.
  destruct (std_exponential (random s)) as [e g']. simpl. intros He.
  assert (Hneg : LAMBDA cfg < 0).
  { unfold LAMBDA. apply Qlt_shift_div_r; lra. }
  destruct (Qeq_bool (LAMBDA cfg) 0) eqn:Hl.
  - apply Qeq_bool_iff in Hl. lra.
  - unfold timeout. pose proof (negative_gap e (LAMBDA cfg) He Hneg).
    destruct (Qlt_le_dec (e / LAMBDA cfg) 0); [reflexivity|lra].
Qed.

(** A zero arrival rate raises [ZeroDivisionError], a negative one
    [ValueError] (as soon as a draw is positive): both in the arrival
    generator, at the first event of the run. *)
Lemma bad_rate_raises (cfg : Config) (fuel : nat) (n : Z) (g : rng_state) :
  (0 < n)%Z -> 0 < SIM_TIME cfg ->
  (ARRIVAL_RATE cfg == 0 ->
     simulate cfg (S (S fuel)) n g = Raised ZeroDivisionError) /\
  (ARRIVAL_RATE cfg < 0 ->
     0 < fst (std_exponential (seed (RANDOM_SEED cfg))) ->
     simulate cfg (S (S fuel)) n g = Raised ValueError).
Proof.
  intros Hn Ht.
  destruct (first_step cfg (S fuel) n g Hn Ht) as (s & u & Hrun & Hq & Hnow & Hr).
  rewrite Hrun. split.
  - intros H0. rewrite (loop_zero_rate _ _ H0).
    apply (run_fail_process cfg fuel _ _ u); simpl; auto.
  - intros Hneg He. rewrite <- Hr in He. rewrite (loop_negative_rate _ _ Hneg He).
    apply (run_fail_process cfg fuel _ _ u); simpl; auto.
Qed.

(** C8 (as the code has it). Before the first event only the number of
    drivers and the horizon are looked at: a number of drivers [<= 0] raises
    [ValueError] at once, and nothing else of the configuration changes the
    outcome of the set-up.  The arrival rate is met by the first draw of the
    arrival generator, at time 0 of the run: a zero rate raises
    [ZeroDivisionError] there, a negative rate [ValueError] when the draw is
    positive.  A negative SLA target does not stop a run; every record the
    run produces has [SLA_Met] false. *)
Theorem checks_before_run (cfg : Config) (fuel : nat) (num_drivers : Z)
    (g : rng_state) :
  ((num_drivers <= 0)%Z ->
     setup cfg num_drivers g = inl ValueError /\
     run_simulation cfg fuel num_drivers g = Raised ValueError) /\
  (forall cfg',
     RANDOM_SEED cfg' = RANDOM_SEED cfg -> SIM_TIME cfg' = SIM_TIME cfg ->
     setup cfg' num_drivers g = setup cfg num_drivers g) /\
  ((0 < num_drivers)%Z -> 0 < SIM_TIME cfg -> ARRIVAL_RATE cfg == 0 ->
     run_simulation cfg (S (S fuel)) num_drivers g = Raised ZeroDivisionError) /\
  ((0 < num_drivers)%Z -> 0 < SIM_TIME cfg -> ARRIVAL_RATE cfg < 0 ->
     0 < fst (std_exponential (seed (RANDOM_SEED cfg))) ->
     run_simulation cfg (S (S fuel)) num_drivers g = Raised ValueError) /\
  (SLA_TARGET cfg < 0 ->
     forall s0 s rec,
       setup cfg num_drivers g = inr s0 -> reachable cfg s0 s ->
       In rec (stats s) -> SLA_Met rec = false).
Proof.
  split; [|split; [|split; [|split]]].
  - intros Hn. unfold run_simulation, simulate, setup.
    destruct (Z.leb_spec num_drivers 0); [split; reflexivity|lia].
  - intros cfg' Hseed Htime. unfold setup, fresh_state.
    rewrite Hseed, Htime. reflexivity.
  - intros Hn Ht H0. unfold run_simulation.
    rewrite (proj1 (bad_rate_raises cfg fuel num_drivers g Hn Ht) H0).
    reflexivity.
  - intros Hn Ht Hneg He. unfold run_simulation.
    rewrite (proj2 (bad_rate_raises cfg fuel num_drivers g Hn Ht) Hneg He).
    reflexivity.
  - intros Hsla s0 s rec Hsetup Hreach Hin.
    destruct (record_times _ _ _ _ _ _ Hsetup Hreach Hin)
      as (a & r & d & c & _ & _ & Ht & Hb).
    pose proof (sla_reachable _ _ _ _ _ Hsetup Hreach) as Hs.
    unfold sla_inv in Hs. rewrite Forall_forall in Hs. rewrite (Hs _ Hin).
    destruct (Qle_bool _ _) eqn:E; [|reflexivity].
    apply Qle_bool_iff in E. rewrite Ht in E. lra.
Qed.

End Properties.

(** * Further properties *)

Section Coverage.

Context {R : Random}.

(** Unfolds the bodies of the generators and of the resource operations and
    splits on every test they make. *)
Ltac split_ops :=
  unfold order_start, order_ready, order_assigned, order_complete,
    order_generator_loop, request, release, trigger_put, timeout,
    fail_process;
  simpl;
  repeat match goal with
         | |- context [match ?x with _ => _ end] => destruct x; simpl
         end.

(** ** Runs step by step *)

(** The last step of a run that returns pops the [until] event. *)
Lemma run_last_step (cfg : Config) (fuel : nat) (s0 s' : State) :
  run cfg fuel s0 = Returned s' ->
  exists s, reachable cfg s0 s /\ step cfg s = Stopped s'.
Proof.
  assert (H : forall s1, reachable cfg s0 s1 -> run cfg fuel s1 = Returned s' ->
                exists s, reachable cfg s0 s /\ step cfg s = Stopped s').
  { induction fuel as [|n IH]; intros s1 Hr; simpl; [discriminate|].
    destruct (step cfg s1) as [s2|s2|e] eqn:E; intros H.
    - apply (IH s2); [|exact H]. eapply reach_next; [exact Hr|now left].
    - injection H as <-. exists s1. auto.
    - discriminate. }
  apply H, reach_start.
Qed.

Lemma step_running (cfg : Config) (s s' : State) :
  step cfg s = Running s' ->
  exists x q,
    heappop (queue s) = Some (x, q) /\
    dispatch cfg (event x) (set_clock (due x) q s) = Running s' /\
    event x <> Until /\ now s' = due x.
Proof.
  unfold step. destruct (heappop (queue s)) as [[x q]|]; [|discriminate].
  intros H. exists x, q. split; [reflexivity|]. split; [exact H|].
  destruct (event x); simpl in H; try discriminate; injection H as <-;
    (split; [discriminate|]); split_ops; reflexivity.
Qed.

(** A property of the states of a run: kept by the steps that go on, and
    holding after the step that stops. *)
Lemma advance_inv (cfg : Config) (I P : State -> Prop) :
  (forall s, I s -> P s) ->
  (forall s s', I s -> step cfg s = Running s' -> I s') ->
  (forall s s', I s -> step cfg s = Stopped s' -> P s') ->
  forall k s, I s -> P (advance cfg k s).
Proof.
  intros HP Hrun Hstop. induction k as [|k IH]; intros s Hs; simpl; [auto|].
  destruct (step cfg s) as [s'|s'|e] eqn:E; eauto.
Qed.

(** What a step adds to the queue: entries due now or later that resume
    neither the [until] event nor the start of the arrival generator. *)
Lemma dispatch_queue (cfg : Config) (ev : Event) (s s' : State) :
  dispatch cfg ev s = Running s' \/ dispatch cfg ev s = Stopped s' ->
  exists l, queue s' = queue s ++ l /\
            Forall (fun x => event x <> Until /\
                             event x <> InitializeGenerator /\
                             priority_ok x) l.
Proof.
  intros [H|H]; destruct ev; simpl in H; try discriminate;
    injection H as <-; split_ops; rewrite <- ?app_assoc;
    first [ exists []; split; [symmetry; apply app_nil_r|constructor]
          | eexists; split; [reflexivity|];
            repeat (constructor;
                    [unfold priority_ok; simpl; repeat split; discriminate|]);
            constructor ].
Qed.

(** ** The clock and the horizon *)

Lemma bounds_frame (s s' : State) (l : list Scheduled) :
  now s' = now s -> queue s' = queue s ++ l ->
  Forall (fun x => arrival_ok (event x)) l ->
  put_queue s' = put_queue s -> log s' = log s ->
  bounds_inv s -> bounds_inv s'.
Proof.
  intros Hn Hq Hl Hp Hlog [H1 H2 H3 H4].
  constructor; rewrite ?Hn, ?Hq, ?Hp, ?Hlog; auto.
  apply Forall_app; split; auto.
Qed.

Lemma bounds_same (s s' : State) :
  now s' = now s -> queue s' = queue s ->
  put_queue s' = put_queue s -> log s' = log s ->
  bounds_inv s -> bounds_inv s'.
Proof.
  intros Hn Hq Hp Hlog [H1 H2 H3 H4].
  constructor; rewrite ?Hn, ?Hq, ?Hp, ?Hlog; auto.
Qed.

Lemma bounds_timeout (d : Q) (ev : Event) (s : State) :
  bounds_inv s -> arrival_ok ev -> bounds_inv (timeout d ev s).
Proof.
  intros Hs Hev. destruct (timeout_fields d ev s) as (_ & _ & Hp & _ & Hl & Hn).
  destruct (timeout_queue d ev s) as (x & Hq & Hx & _).
  apply (bounds_frame s _ [x]); auto.
  constructor; [|constructor].
  destruct Hx as [->|[e ->]]; simpl; auto.
Qed.

Lemma bounds_order_generator_loop (cfg : Config) (s : State) :
  bounds_inv s -> bounds_inv (order_generator_loop cfg s).
Proof.
  intros Hs.
  destruct (order_generator_loop_fields cfg s) as (_ & _ & Hp & _ & Hl & Hn).
  destruct (order_generator_loop_queue cfg s) as (x & Hq & Hx & _).
  apply (bounds_frame s _ [x]); auto.
  constructor; [|constructor].
  destruct Hx as [->|[e ->]]; simpl; auto.
Qed.

Lemma bounds_trigger_put (s : State) : bounds_inv s -> bounds_inv (trigger_put s).
Proof.
  intros [H1 H2 H3 H4]. unfold trigger_put.
  destruct (put_queue s) as [|r rest] eqn:E; [constructor; rewrite ?E; auto|].
  destruct (Z.of_nat (length (users s)) <? capacity s)%Z;
    [|constructor; rewrite ?E; auto].
  inversion H3 as [|? ? Hr Hrest]; subst.
  constructor; simpl; auto.
  - apply Forall_app; split; [exact H2|]. constructor; [exact Hr|constructor].
  - apply Forall_app; split; [exact H4|].
    constructor; [simpl; lra|constructor].
Qed.

Lemma bounds_dispatch (cfg : Config) (ev : Event) (s s' : State) :
  bounds_inv s -> arrival_ok ev ->
  dispatch cfg ev s = Running s' \/ dispatch cfg ev s = Stopped s' ->
  bounds_inv s'.
Proof.
  intros Hs Hev [H|H]; destruct ev; simpl in H; try discriminate;
    injection H as <-; auto.
  - apply bounds_order_generator_loop.
    revert Hs; now apply bounds_same.
  - apply bounds_order_generator_loop.
    match goal with |- bounds_inv (schedule ?p ?d ?e ?t) =>
      apply (bounds_frame s _ [{| due := now t + d; priority := p;
                                  eid := next_eid t; event := e |}]) end;
      simpl; auto; try (constructor; [exact I|constructor]).
  - unfold order_start. destruct (prep_time cfg (random s)) as [p g].
    apply bounds_timeout; simpl.
    + revert Hs; now apply bounds_same.
    + apply (bounds_now s Hs).
  - unfold order_ready, request. apply bounds_trigger_put.
    destruct Hs as [H1 H2 H3 H4]. constructor; simpl; auto.
    + apply Forall_app; split; [exact H3|]. constructor; [exact Hev|constructor].
    + apply Forall_app; split; [exact H4|]. constructor; [simpl; lra|constructor].
  - unfold order_assigned. destruct (delivery_time cfg (random s)) as [d g].
    apply bounds_timeout; simpl; [|exact Hev].
    revert Hs; now apply bounds_same.
  - unfold order_complete, release. destruct Hs as [H1 H2 H3 H4].
    simpl in Hev. constructor; simpl; auto.
    + repeat (apply Forall_app; split; [|constructor; [exact I|constructor]]).
      exact H2.
    + repeat (apply Forall_app; split); auto;
        (constructor; [simpl|constructor]); [split; [exact Hev|lra] | lra].
  - now apply bounds_trigger_put.
Qed.

Lemma bounds_step (cfg : Config) (s s' : State) :
  timing_inv s -> bounds_inv s -> step_to cfg s s' -> bounds_inv s'.
Proof.
  intros Ht Hs Hst.
  destruct (step_to_dispatch _ _ _ Hst) as (x & q & Hpop & Hd).
  destruct (heappop_In _ _ _ Hpop) as [Hx Hincl].
  pose proof (inv_queue s Ht) as Hq. rewrite Forall_forall in Hq.
  destruct (Hq x Hx) as [Hnow _].
  destruct Hs as [H1 H2 H3 H4]. rewrite Forall_forall in H2.
  eapply bounds_dispatch; [|apply (H2 x Hx)|exact Hd].
  constructor; simpl; auto.
  - lra.
  - apply Forall_forall. intros y Hy. apply H2, Hincl, Hy.
  - eapply Forall_impl; [|exact H4].
    intros o; destruct o; simpl; intros; lra.
Qed.

Lemma bounds_reachable (cfg : Config) (n : Z) (g : rng_state) (s0 s : State) :
  setup cfg n g = inr s0 -> reachable cfg s0 s -> bounds_inv s.
Proof.
  intros Hsetup Hreach.
  assert (timing_inv s /\ bounds_inv s) as [_ H]; [|exact H].
  apply (reachable_ind_inv cfg (fun t => timing_inv t /\ bounds_inv t) s0);
    [ | | exact Hreach].
  - split; [eapply timing_setup; eauto|].
    revert Hsetup. unfold setup. destruct (n <=? 0)%Z; [discriminate|].
    destruct (Qle_bool (SIM_TIME cfg) _); [discriminate|].
    intros H; injection H as <-.
    constructor; simpl; try lra; repeat constructor.
  - intros t t' [Ht Hb] Hst; split.
    + eapply timing_step; eauto.
    + eapply bounds_step; eauto.
Qed.

Lemma until_step (cfg : Config) (s s' : State) :
  until_inv cfg s -> step_to cfg s s' -> until_inv cfg s'.
Proof.
  unfold until_inv. intros Hs Hst.
  destruct (step_to_dispatch _ _ _ Hst) as (x & q & Hpop & Hd).
  destruct (dispatch_queue _ _ _ _ Hd) as (l & Hq & Hl).
  rewrite Hq. simpl. apply Forall_app; split.
  - destruct (heappop_In _ _ _ Hpop) as [_ Hincl].
    rewrite Forall_forall in *. intros y Hy. apply Hs, Hincl, Hy.
  - eapply Forall_impl; [|exact Hl]. simpl. intros y [Hy _] E. contradiction.
Qed.

Lemma before_horizon_setup (cfg : Config) (n : Z) (g : rng_state) (s0 : State) :
  setup cfg n g = inr s0 -> before_horizon cfg s0.
Proof.
  intros Hsetup. pose proof (timing_setup _ _ _ _ Hsetup) as Ht.
  revert Hsetup. unfold setup. destruct (n <=? 0)%Z; [discriminate|].
  simpl. destruct (Qle_bool (SIM_TIME cfg) 0) eqn:E; [discriminate|].
  intros H; injection H as <-.
  assert (Hlt : 0 < SIM_TIME cfg).
  { destruct (Qlt_le_dec 0 (SIM_TIME cfg)) as [Hl|Hl]; [exact Hl|].
    apply Qle_bool_iff in Hl. congruence. }
  constructor; auto.
  - unfold until_inv; simpl. constructor; [discriminate|].
    constructor; [simpl; intros _; lra|constructor].
  - eexists; split; [simpl; right; left; reflexivity|reflexivity].
  - simpl; lra.
Qed.

Lemma before_horizon_running (cfg : Config) (s s' : State) :
  before_horizon cfg s -> step cfg s = Running s' -> before_horizon cfg s'.
Proof.
  intros [Ht Hu (u & Hin & Hev) Hn] Hstep.
  assert (Hst : step_to cfg s s') by now left.
  destruct (step_running _ _ _ Hstep) as (x & q & Hpop & Hd & Hx & Hnow).
  destruct (dispatch_queue _ _ _ _ (or_introl Hd)) as (l & Hq & Hl).
  pose proof (heappop_perm _ _ _ Hpop) as Hperm.
  assert (Huq : In u q).
  { apply (Permutation_in _ Hperm) in Hin. destruct Hin as [<-|Hin]; auto.
    contradiction. }
  constructor.
  - eapply timing_step; eauto.
  - eapply until_step; eauto.
  - exists u. split; [|exact Hev]. rewrite Hq. simpl. apply in_or_app. now left.
  - rewrite Hnow.
    pose proof (inv_queue s Ht) as Hqs. rewrite Forall_forall in Hqs.
    destruct (heappop_In _ _ _ Hpop) as [Hxin _].
    destruct (Hqs x Hxin) as [Hge _].
    assert (Hle : due x <= due u) by (eapply heappop_le; eauto).
    unfold until_inv in Hu. rewrite Forall_forall in Hu.
    pose proof (Hu u Hin Hev). lra.
Qed.

Lemma before_horizon_stopped (cfg : Config) (s s' : State) :
  before_horizon cfg s -> step cfg s = Stopped s' ->
  now s' == SIM_TIME cfg /\ stats s' = stats s /\ log s' = log s.
Proof.
  intros [Ht Hu _ Hn] Hstep. unfold step in Hstep.
  destruct (heappop (queue s)) as [[x q]|] eqn:Hpop; [|discriminate].
  destruct (heappop_In _ _ _ Hpop) as [Hxin _].
  destruct (event x) eqn:E; simpl in Hstep; try discriminate.
  injection Hstep as <-. simpl. repeat split.
  unfold until_inv in Hu. rewrite Forall_forall in Hu. apply (Hu x Hxin E).
Qed.

Lemma run_returns_at_horizon (cfg : Config) (fuel : nat) (s0 s : State) :
  before_horizon cfg s0 -> run cfg fuel s0 = Returned s ->
  now s == SIM_TIME cfg.
Proof.
  revert s0; induction fuel as [|k IH]; intros s0 H0; simpl; [discriminate|].
  destruct (step cfg s0) as [s1|s1|e] eqn:E; intros H.
  - eapply IH; [|exact H]. eapply before_horizon_running; eauto.
  - injection H as <-. eapply before_horizon_stopped; eauto.
  - discriminate.
Qed.

(** X1. The clock of a run starts at 0, never goes back, stays within the
    horizon while the loop runs, and stands exactly at the horizon when
    [env.run] returns. *)
Theorem clock_within_horizon (cfg : Config) (num_drivers : Z) (g : rng_state)
    (s0 : State) :
  setup cfg num_drivers g = inr s0 ->
  (forall k, 0 <= now (advance cfg k s0) /\
             now (advance cfg k s0) <= SIM_TIME cfg) /\
  (forall s s', reachable cfg s0 s -> step_to cfg s s' -> now s <= now s') /\
  (forall fuel s, run cfg fuel s0 = Returned s -> now s == SIM_TIME cfg).
Proof.
  intros Hsetup. pose proof (before_horizon_setup _ _ _ _ Hsetup) as H0.
  split; [|split].
  - intros k.
    apply (advance_inv cfg (before_horizon cfg)
             (fun s => 0 <= now s /\ now s <= SIM_TIME cfg)); auto.
    + intros s Hs. apply (bh_now cfg s Hs).
    + intros s s'. apply before_horizon_running.
    + intros s s' Hs Hstep.
      destruct (before_horizon_stopped _ _ _ Hs Hstep) as (Hn & _).
      pose proof (bh_now cfg s Hs). lra.
  - intros s s' Hreach Hst.
    pose proof (timing_reachable _ _ _ _ _ Hsetup Hreach) as Ht.
    destruct (step_to_dispatch _ _ _ Hst) as (x & q & Hpop & Hd).
    destruct (heappop_In _ _ _ Hpop) as [Hx _].
    pose proof (inv_queue s Ht) as Hq. rewrite Forall_forall in Hq.
    destruct (Hq x Hx) as [Hnow _].
    assert (Hs' : now s' = due x).
    { destruct Hd as [Hd|Hd]; destruct (event x); simpl in Hd;
        try discriminate; injection Hd as <-; split_ops; reflexivity. }
    rewrite Hs'. exact Hnow.
  - intros fuel s. now apply run_returns_at_horizon.
Qed.

(** *** Completions come before the [until] event *)

Lemma entry_lt_true_not_after (a b : Scheduled) :
  entry_lt a b = true -> not_after a b.
Proof.
  unfold entry_lt, not_after.
  destruct (Qcompare_spec (due a) (due b)) as [He|Hl|Hg]; intros H;
    try discriminate; [right|now left].
  split; [exact He|].
  destruct (Nat.compare_spec (priority a) (priority b)); try discriminate; lia.
Qed.

Lemma entry_lt_false_not_after (a b : Scheduled) :
  entry_lt a b = false -> not_after b a.
Proof.
  unfold entry_lt, not_after.
  destruct (Qcompare_spec (due a) (due b)) as [He|Hl|Hg]; intros H;
    try discriminate; [right|now left].
  split; [now symmetry|].
  destruct (Nat.compare_spec (priority a) (priority b)); try discriminate; lia.
Qed.

Lemma not_after_trans (a b c : Scheduled) :
  not_after a b -> not_after b c -> not_after a c.
Proof.
  unfold not_after. intros [H1|[H1 H1']] [H2|[H2 H2']].
  - left; lra.
  - left; lra.
  - left; lra.
  - right; split; [lra|lia].
Qed.

(** [heappop] gives an entry that no other entry precedes by time and
    priority. *)
Lemma heappop_not_after (q q' : list Scheduled) (x y : Scheduled) :
  heappop q = Some (x, q') -> In y q -> not_after x y.
Proof.
  revert x q' y; induction q as [|z q IH]; intros x q' y; simpl; [discriminate|].
  destruct (heappop q) as [[m r]|] eqn:E.
  - destruct (entry_lt m z) eqn:Hlt; intros H; injection H as <- <-.
    + apply entry_lt_true_not_after in Hlt.
      intros [<-|Hy]; [exact Hlt|]. eapply IH; eauto.
    + apply entry_lt_false_not_after in Hlt.
      intros [<-|Hy]; [right; split; [reflexivity|lia]|].
      apply (not_after_trans _ m); [exact Hlt|]. eapply IH; eauto.
  - destruct q; [|simpl in E; destruct (heappop q) as [[? ?]|];
                   [destruct (entry_lt _ _)|]; discriminate].
    intros H; injection H as <- <-. intros [<-|[]].
    right; split; [reflexivity|lia].
Qed.

Lemma dispatch_completed (cfg : Config) (t : Q) (ev : Event) (s s' : State) :
  dispatch cfg ev s = Running s' \/ dispatch cfg ev s = Stopped s' ->
  Forall (completed_before t) (log s) ->
  (forall r d w, ev = DeliveryTimeout r d w -> now s < t) ->
  Forall (completed_before t) (log s').
Proof.
  intros [H|H] Hl Hev; destruct ev; simpl in H; try discriminate;
    injection H as <-; split_ops;
    repeat (apply Forall_app; split; [|constructor; [simpl|constructor]]);
    auto; eapply Hev; reflexivity.
Qed.

Lemma strictly_before_setup (cfg : Config) (n : Z) (g : rng_state) (s0 : State) :
  setup cfg n g = inr s0 -> strictly_before cfg s0.
Proof.
  intros Hsetup. constructor; [eapply before_horizon_setup; eauto| |];
    revert Hsetup; unfold setup; destruct (n <=? 0)%Z; try discriminate;
    destruct (Qle_bool (SIM_TIME cfg) _); try discriminate;
    intros H; injection H as <-; simpl; repeat constructor.
Qed.

Lemma strictly_before_running (cfg : Config) (s s' : State) :
  strictly_before cfg s -> step cfg s = Running s' -> strictly_before cfg s'.
Proof.
  intros [Hb Hp Hl] Hstep.
  destruct (step_running _ _ _ Hstep) as (x & q & Hpop & Hd & Hx & Hnow).
  destruct (dispatch_queue _ _ _ _ (or_introl Hd)) as (l & Hq & Hnew).
  destruct (heappop_In _ _ _ Hpop) as [Hxin Hincl].
  constructor.
  - eapply before_horizon_running; eauto.
  - rewrite Hq. simpl. apply Forall_app; split.
    + rewrite Forall_forall in *. intros y Hy. apply Hp, Hincl, Hy.
    + eapply Forall_impl; [|exact Hnew]. simpl. now intros y (_ & _ & Hy).
  - apply (dispatch_completed cfg _ _ _ _ (or_introl Hd)); [exact Hl|].
    simpl. intros r d w E.
    destruct Hb as [_ Hu (u & Hin & Hev) _].
    unfold until_inv in Hu. rewrite Forall_forall in Hu, Hp.
    pose proof (Hu u Hin Hev) as Hdue.
    pose proof (Hp u Hin) as Hpu. pose proof (Hp x Hxin) as Hpx.
    unfold priority_ok in Hpu, Hpx. rewrite Hev in Hpu. rewrite E in Hpx.
    destruct (heappop_not_after _ _ _ u Hpop Hin) as [Hlt|[_ Hle]]; [lra|].
    rewrite Hpu, Hpx in Hle. unfold URGENT, NORMAL in Hle. lia.
Qed.

Lemma run_returns_strictly_before (cfg : Config) (fuel : nat) (s0 s : State) :
  strictly_before cfg s0 -> run cfg fuel s0 = Returned s ->
  Forall (completed_before (SIM_TIME cfg)) (log s).
Proof.
  revert s0; induction fuel as [|k IH]; intros s0 H0; simpl; [discriminate|].
  destruct (step cfg s0) as [s1|s1|e] eqn:E; intros H.
  - eapply IH; [|exact H]. eapply strictly_before_running; eauto.
  - injection H as <-.
    destruct (before_horizon_stopped _ _ _ (sb_horizon _ _ H0) E) as (_ & _ & ->).
    apply (sb_log _ _ H0).
  - discriminate.
Qed.

(** The time stamps behind a record that [simulate] returns: the order
    arrived at or after 0 and completed before the horizon. *)
Lemma record_in_horizon (cfg : Config) (fuel : nat) (n : Z) (g : rng_state)
    (s : State) (rec : OrderRecord) :
  simulate cfg fuel n g = Returned s -> In rec (stats s) ->
  exists a r d c,
    Wait_For_Driver rec = d - r /\ Total_Delivery_Time rec = c - a /\
    0 <= a /\ a + 5 <= r /\ r <= d /\ d + 5 <= c /\ c < SIM_TIME cfg /\
    SLA_Met rec = Qle_bool (Total_Delivery_Time rec) (SLA_TARGET cfg).
Proof.
  intros Hsim Hin.
  destruct (simulate_reachable _ _ _ _ _ Hsim) as (s0 & Hsetup & Hreach).
  destruct (record_times _ _ _ _ _ _ Hsetup Hreach Hin)
    as (a & r & d & c & Ho & Hw & Ht & Hb).
  pose proof (bounds_log s (bounds_reachable _ _ _ _ _ Hsetup Hreach)) as Hl.
  rewrite Forall_forall in Hl. specialize (Hl _ Ho). simpl in Hl.
  assert (Hc : Forall (completed_before (SIM_TIME cfg)) (log s)).
  { unfold simulate in Hsim. rewrite Hsetup in Hsim.
    eapply run_returns_strictly_before; [|exact Hsim].
    eapply strictly_before_setup; eauto. }
  rewrite Forall_forall in Hc. specialize (Hc _ Ho). simpl in Hc.
  pose proof (sla_reachable _ _ _ _ _ Hsetup Hreach) as Hs.
  unfold sla_inv in Hs. rewrite Forall_forall in Hs.
  exists a, r, d, c. repeat split; auto; try lra. 
Qed.


(** X3. With a horizon of 10 or less no order can complete before the
    [until] event, so [run_simulation] never returns a summary: it raises
    (the [KeyError] of the empty data frame, if nothing else) or does not
    end within the given number of steps. *)
Theorem short_horizon_no_summary (cfg : Config) (fuel : nat) (num_drivers : Z)
    (g : rng_state) :
  SIM_TIME cfg <= 10 ->
  (exists e, run_simulation cfg fuel num_drivers g = Raised e) \/
  run_simulation cfg fuel num_drivers g = OutOfFuel.
Proof.
  intros Hshort. unfold run_simulation.
  destruct (simulate cfg fuel num_drivers g) as [s|e|] eqn:Hsim; eauto.
  left. exists KeyError.
  destruct (stats s) as [|rec st] eqn:Hst; [reflexivity|].
  assert (Hin : In rec (stats s)) by (rewrite Hst; now left).
  destruct (record_in_horizon _ _ _ _ _ _ Hsim Hin)
    as (a & r & d & c & _ & _ & Hb).
  lra.
Qed.

(** ** A run without arrivals *)

Lemma first_step_detail (cfg : Config) (fuel : nat) (n : Z) (g : rng_state) :
  (0 < n)%Z -> 0 < SIM_TIME cfg ->
  exists s u,
    simulate cfg (S fuel) n g = run cfg fuel (order_generator_loop cfg s) /\
    queue s = [u] /\ event u = Until /\ priority u = URGENT /\
    due u == SIM_TIME cfg /\ now s == 0 /\ stats s = [] /\
    order_id s = 0%Z /\ random s = seed (RANDOM_SEED cfg).
Proof.
  intros Hn Ht. unfold simulate, setup, fresh_state.
  destruct (Z.leb_spec n 0); [lia|].
  cbn [now schedule].
  destruct (Qle_bool (SIM_TIME cfg) 0) eqn:E;
    [apply Qle_bool_iff in E; lra|].
  cbn [run]. unfold step. cbn [queue schedule app now next_eid].
  rewrite heappop_two_first by (apply entry_lt_later; simpl; lra).
  cbn [event dispatch due].
  eexists; eexists; split; [reflexivity|].
  cbn [queue now due eid next_eid random stats priority event set_order_id
       set_clock schedule order_id].
  repeat split; try reflexivity; simpl; lra.
Qed.

(** X4. When the first gap drawn by the arrival generator reaches the
    horizon, no order arrives: [env.run] returns with an empty [stats] and
    [run_simulation] raises [KeyError] instead of returning a summary. *)
Theorem no_arrival_raises (cfg : Config) (fuel : nat) (num_drivers : Z)
    (g : rng_state) :
  (0 < num_drivers)%Z -> 0 < SIM_TIME cfg -> ~ LAMBDA cfg == 0 ->
  SIM_TIME cfg <= fst (std_exponential (seed (RANDOM_SEED cfg))) / LAMBDA cfg ->
  (exists s, simulate cfg (S (S fuel)) num_drivers g = Returned s /\
             stats s = [] /\ order_id s = 0%Z) /\
  run_simulation cfg (S (S fuel)) num_drivers g = Raised KeyError.
Proof.
  intros Hn Ht Hl Hgap.
  destruct (first_step_detail cfg (S fuel) num_drivers g Hn Ht)
    as (s & u & Hrun & Hq & Hev & Hprio & Hdue & Hnow & Hst & Hid0 & Hr).
  assert (Hsim : exists s', simulate cfg (S (S fuel)) num_drivers g = Returned s' /\
                            stats s' = [] /\ order_id s' = order_id s).
  { rewrite Hrun. unfold order_generator_loop, expovariate. rewrite Hr.
    destruct (std_exponential (seed (RANDOM_SEED cfg))) as [e g'].
    simpl in Hgap.
    destruct (Qeq_bool (LAMBDA cfg) 0) eqn:El;
      [apply Qeq_bool_iff in El; contradiction|].
    unfold timeout.
    destruct (Qlt_le_dec (e / LAMBDA cfg) 0) as [Hneg|Hpos]; [lra|].
    cbn [run]. unfold step. cbn [queue schedule set_random]. rewrite Hq.
    cbn [app].
    rewrite heappop_two_first.
    - rewrite Hev. cbn [dispatch]. eexists; split; [reflexivity|].
      simpl. auto.
    - unfold entry_lt. cbn [due priority now set_random].
      destruct (Qcompare_spec (now s + e / LAMBDA cfg) (due u));
        [|lra|reflexivity].
      rewrite Hprio. reflexivity. }
  destruct Hsim as (s' & Hs' & Hst' & Hid).
  split.
  - exists s'. repeat split; auto. congruence.
  - unfold run_simulation. rewrite Hs', Hst'. reflexivity.
Qed.

(** ** The summary *)

Lemma round_half_even_lower (n : Z) (x : Q) :
  inject_Z n <= x -> (n <= round_half_even x)%Z.
Proof.
  intros H. apply Qfloor_resp_le in H. rewrite Qfloor_Z in H.
  unfold round_half_even.
  destruct (Qcompare (x - inject_Z (Qfloor x)) (1 # 2)); try lia.
  destruct (Z.even (Qfloor x)); lia.
Qed.

Lemma round_half_even_upper (n : Z) (x : Q) :
  x <= inject_Z n -> (round_half_even x <= n)%Z.
Proof.
  intros H. pose proof (Qfloor_resp_le _ _ H) as Hf. rewrite Qfloor_Z in Hf.
  unfold round_half_even.
  destruct (Z.eq_dec (Qfloor x) n) as [E|E].
  - pose proof (Qfloor_le x) as Hle. rewrite E in *.
    destruct (Qcompare_spec (x - inject_Z n) (1 # 2)); [lra|lia|lra].
  - destruct (Qcompare (x - inject_Z (Qfloor x)) (1 # 2)); try lia.
    destruct (Z.even (Qfloor x)); lia.
Qed.

Lemma div_100 (y : Q) : y / 100 == y * (1 # 100).
Proof. reflexivity. Qed.

(** Rounding to two places keeps bounds that are whole hundredths. *)
Lemma round2_lower (k : Z) (c x : Q) :
  c * 100 == inject_Z k -> c <= x -> c <= round2 x.
Proof.
  intros Hc H. unfold round2. rewrite div_100.
  assert (Hk : inject_Z k <= x * 100) by lra.
  apply round_half_even_lower in Hk. rewrite Zle_Qle in Hk. lra.
Qed.

Lemma round2_upper (k : Z) (c x : Q) :
  c * 100 == inject_Z k -> x <= c -> round2 x <= c.
Proof.
  intros Hc H. unfold round2. rewrite div_100.
  assert (Hk : x * 100 <= inject_Z k) by lra.
  apply round_half_even_upper in Hk. rewrite Zle_Qle in Hk. lra.
Qed.

Lemma Qsum_lower (c : Q) (xs : list Q) :
  Forall (fun x => c <= x) xs ->
  c * inject_Z (Z.of_nat (length xs)) <= Qsum xs.
Proof.
  induction 1 as [|x xs Hx Hxs IH].
  - change (Qsum []) with 0. change (inject_Z (Z.of_nat (length (@nil Q)))) with 0.
    lra.
  - change (Qsum (x :: xs)) with (x + Qsum xs).
    change (length (x :: xs)) with (S (length xs)).
    rewrite Nat2Z.inj_succ, <- Z.add_1_r, inject_Z_plus.
    change (inject_Z 1) with 1. lra.
Qed.

Lemma Qsum_upper (c : Q) (xs : list Q) :
  Forall (fun x => x <= c) xs ->
  Qsum xs <= c * inject_Z (Z.of_nat (length xs)).
Proof.
  induction 1 as [|x xs Hx Hxs IH].
  - change (Qsum []) with 0. change (inject_Z (Z.of_nat (length (@nil Q)))) with 0.
    lra.
  - change (Qsum (x :: xs)) with (x + Qsum xs).
    change (length (x :: xs)) with (S (length xs)).
    rewrite Nat2Z.inj_succ, <- Z.add_1_r, inject_Z_plus.
    change (inject_Z 1) with 1. lra.
Qed.

Lemma length_positive {A : Type} (x : A) (xs : list A) :
  0 < inject_Z (Z.of_nat (length (x :: xs))).
Proof.
  assert (H : (0 < Z.of_nat (length (x :: xs)))%Z) by (simpl; lia).
  rewrite Zlt_Qlt in H. exact H.
Qed.

Lemma mean_lower (c x : Q) (xs : list Q) :
  Forall (fun y => c <= y) (x :: xs) -> c <= mean (x :: xs).
Proof.
  intros H. unfold mean.
  apply Qle_shift_div_l; [apply length_positive|]. now apply Qsum_lower.
Qed.

Lemma mean_upper (c x : Q) (xs : list Q) :
  Forall (fun y => y <= c) (x :: xs) -> mean (x :: xs) <= c.
Proof.
  intros H. unfold mean.
  apply Qle_shift_div_r; [apply length_positive|]. now apply Qsum_upper.
Qed.

Lemma Forall_map_column {A : Type} (f : A -> Q) (P : Q -> Prop) (l : list A) :
  (forall a, In a l -> P (f a)) -> Forall P (map f l).
Proof.
  intros H. apply Forall_forall. intros y Hy.
  apply in_map_iff in Hy. destruct Hy as (a & <- & Ha). auto.
Qed.

(** The summary of a non-empty list of records whose columns lie within
    bounds that are whole hundredths. *)
Lemma summarize_bounds (n : Z) (st : list OrderRecord) (sm : Summary)
    (w0 t0 b0 b1 : Q) (kw kt k0 k1 : Z) :
  w0 * 100 == inject_Z kw -> t0 * 100 == inject_Z kt ->
  b0 * 100 == inject_Z k0 -> b1 * 100 == inject_Z k1 ->
  summarize n st = Returned sm ->
  (forall rec, In rec st ->
     w0 <= Wait_For_Driver rec /\
     t0 <= Total_Delivery_Time rec /\
     b0 <= bool_to_Q (SLA_Met rec) * 100 /\
     bool_to_Q (SLA_Met rec) * 100 <= b1) ->
  Drivers sm = n /\
  w0 <= Avg_Wait_Time sm /\
  t0 <= Avg_Total_Time sm /\
  b0 <= SLA_Compliance sm /\
  SLA_Compliance sm <= b1.
Proof.
  intros Ew Et E0 E1.
  unfold summarize. destruct st as [|rec st]; [discriminate|].
  intros H Hb; injection H as <-. simpl Drivers. simpl Avg_Wait_Time.
  simpl Avg_Total_Time. simpl SLA_Compliance.
  split; [reflexivity|]. split; [|split; [|split]].
  - apply (round2_lower kw); [exact Ew|]. simpl map.
    apply (mean_lower _ _ (map Wait_For_Driver st)).
    apply (Forall_map_column Wait_For_Driver _ (rec :: st)).
    intros a Ha. apply (Hb a Ha).
  - apply (round2_lower kt); [exact Et|]. simpl map.
    apply (mean_lower _ _ (map Total_Delivery_Time st)).
    apply (Forall_map_column Total_Delivery_Time _ (rec :: st)).
    intros a Ha. apply (Hb a Ha).
  - apply (round2_lower k0); [exact E0|].
    assert (Hm : b0 * (1 # 100) <=
                 mean (map (fun r => bool_to_Q (SLA_Met r)) (rec :: st))).
    { simpl map. apply mean_lower.
      apply (Forall_map_column (fun r => bool_to_Q (SLA_Met r)) _ (rec :: st)).
      intros a Ha. destruct (Hb a Ha) as (_ & _ & Hlo & _). lra. }
    cbn [map] in *. lra.
  - apply (round2_upper k1); [exact E1|].
    assert (Hm : mean (map (fun r => bool_to_Q (SLA_Met r)) (rec :: st)) <=
                 b1 * (1 # 100)).
    { simpl map. apply mean_upper.
      apply (Forall_map_column (fun r => bool_to_Q (SLA_Met r)) _ (rec :: st)).
      intros a Ha. destruct (Hb a Ha) as (_ & _ & _ & Hhi). lra. }
    cbn [map] in *. lra.
Qed.

Lemma flag_percent (b : bool) :
  0 <= bool_to_Q b * 100 /\ bool_to_Q b * 100 <= 100.
Proof.
  destruct b; simpl; lra.
Qed.



(** ** The sweep *)




(** ** The stages of the orders *)

(** Permutations of concatenations of the same lists: the head of the left
    side is looked for on the right side by rotating it. *)
Ltac perm_rotate :=
  eapply Permutation_trans; [|apply Permutation_app_comm];
  rewrite <- ?app_assoc.

Ltac perm_find n :=
  lazymatch n with
  | O => fail
  | S ?k => first [ apply Permutation_app_head | perm_rotate; perm_find k ]
  end.

Ltac perm_solve :=
  rewrite <- ?app_assoc; rewrite ?app_nil_l, ?app_nil_r;
  repeat first [ reflexivity | perm_find 8%nat ].

Lemma collect_snoc {A : Type} (f : Event -> list A) (q : list Scheduled)
    (x : Scheduled) :
  collect f (q ++ [x]) = collect f q ++ f (event x).
Proof.
  unfold collect. rewrite flat_map_app. simpl. rewrite app_nil_r. reflexivity.
Qed.

Lemma collect_perm {A : Type} (f : Event -> list A) (q q' : list Scheduled) :
  Permutation q q' -> Permutation (collect f q) (collect f q').
Proof.
  unfold collect. induction 1; simpl.
  - constructor.
  - now apply Permutation_app_head.
  - rewrite !app_assoc. apply Permutation_app_tail, Permutation_app_comm.
  - etransitivity; eauto.
Qed.

Lemma completed_snoc (l : list Obs) (o : Obs) :
  completed (l ++ [o]) =
  completed l ++ match o with ObsCompleted id _ _ _ _ => [id] | _ => [] end.
Proof.
  unfold completed. rewrite flat_map_app. simpl. rewrite app_nil_r. reflexivity.
Qed.

Lemma ids_upto_succ (n : Z) :
  (0 <= n)%Z -> ids_upto (n + 1) = ids_upto n ++ [(n + 1)%Z].
Proof.
  intros Hn. unfold ids_upto.
  replace (Z.to_nat (n + 1)) with (S (Z.to_nat n)) by lia.
  rewrite seq_S, map_app. simpl. f_equal. f_equal. lia.
Qed.

Lemma ids_upto_spec (n id : Z) :
  In id (ids_upto n) -> (1 <= id <= n)%Z.
Proof.
  unfold ids_upto. intros H. apply in_map_iff in H.
  destruct H as (k & <- & Hk). apply in_seq in Hk. lia.
Qed.

Lemma ids_upto_NoDup (n : Z) : NoDup (ids_upto n).
Proof.
  unfold ids_upto. apply Finite.Injective_map_NoDup.
  - intros a b H. lia.
  - apply seq_NoDup.
Qed.

Lemma remove_request_perm (id : Z) (us : list Request) (l : list Z) :
  Permutation (map req_order_id us) (id :: l) ->
  Permutation (map req_order_id (remove_request id us)) l.
Proof.
  revert l; induction us as [|u us IH]; intros l H; simpl in *.
  - apply Permutation_nil in H. discriminate.
  - destruct (Z.eqb_spec (req_order_id u) id) as [E|E].
    + rewrite E in H. now apply Permutation_cons_inv in H.
    + assert (Hin : In (req_order_id u) (id :: l))
        by (apply (Permutation_in _ H); now left).
      destruct Hin as [Hin|Hin]; [congruence|].
      destruct (in_split _ _ Hin) as (l1 & l2 & ->).
      simpl. etransitivity; [|apply Permutation_middle].
      apply perm_skip. apply IH.
      apply Permutation_cons_inv with (a := req_order_id u).
      etransitivity; [exact H|].
      etransitivity; [apply perm_skip; symmetry; apply Permutation_middle|].
      apply perm_swap.
Qed.

(** The two timeouts of [order] are always scheduled: their delays are at
    least 5. *)
Lemma order_start_eq (cfg : Config) (id : Z) (s : State) :
  order_start cfg id s =
  schedule NORMAL (fst (prep_time cfg (random s))) (PrepTimeout id (now s))
    (set_random (snd (prep_time cfg (random s))) s).
Proof.
  unfold order_start, timeout.
  pose proof (prep_time_floor cfg (random s)) as Hs.
  destruct (prep_time cfg (random s)) as [p g']; simpl in *.
  destruct (Qlt_le_dec p 0); [lra|reflexivity].
Qed.

Lemma order_assigned_eq (cfg : Config) (r : Request) (s : State) :
  order_assigned cfg r s =
  schedule NORMAL (fst (delivery_time cfg (random s)))
    (DeliveryTimeout r (now s) (now s - req_ready_time r))
    (set_random (snd (delivery_time cfg (random s))) s).
Proof.
  unfold order_assigned, timeout.
  pose proof (delivery_time_floor cfg (random s)) as Hs.
  destruct (delivery_time cfg (random s)) as [d g']; simpl in *.
  destruct (Qlt_le_dec d 0); [lra|reflexivity].
Qed.

Lemma stages_trigger_put (s : State) :
  stages [] [] s -> stages [] [] (trigger_put s).
Proof.
  intros H. unfold trigger_put.
  destruct (put_queue s) as [|r rest] eqn:E; [exact H|].
  destruct (Z.of_nat (length (users s)) <? capacity s)%Z; [|exact H].
  destruct H as [Hc Ha Hu Hs].
  unfold waiting in Ha. rewrite E in Ha. simpl map in Ha.
  constructor; unfold waiting; simpl queue; simpl log; simpl put_queue;
    simpl users; simpl stats; simpl order_id; auto.
  - rewrite !collect_snoc, completed_snoc. cbn [event pending_id holding_id].
    eapply Permutation_trans; [|exact Ha].
    change (req_order_id r :: map req_order_id rest)
      with ([req_order_id r] ++ map req_order_id rest).
    perm_solve.
  - rewrite collect_snoc, map_app. simpl. 
    apply Permutation_app_tail. exact Hu.
  - rewrite completed_snoc, app_nil_r. exact Hs.
Qed.

Lemma collect_app {A : Type} (f : Event -> list A) (q l : list Scheduled) :
  collect f (q ++ l) = collect f q ++ collect f l.
Proof. unfold collect. apply flat_map_app. Qed.

(** A step that only adds entries to the queue: the orders of the processed
    event are found in the new entries. *)
Lemma stages_extend (p h p' h' : list Z) (s s' : State) (l : list Scheduled) :
  order_id s' = order_id s -> users s' = users s ->
  put_queue s' = put_queue s -> stats s' = stats s -> log s' = log s ->
  queue s' = queue s ++ l ->
  Permutation (p' ++ collect pending_id l) p ->
  Permutation (h' ++ collect holding_id l) h ->
  stages p h s -> stages p' h' s'.
Proof.
  intros Ho Hu Hp Hst Hl Hq Pp Ph [Hc Ha Hus Hs].
  constructor; unfold waiting in *; rewrite ?Ho, ?Hu, ?Hp, ?Hst, ?Hl, ?Hq;
    rewrite ?collect_app; auto.
  - eapply Permutation_trans; [|exact Ha].
    eapply Permutation_trans;
      [|apply Permutation_app; [exact Pp|];
        do 2 apply Permutation_app_head;
        apply Permutation_app; [exact Ph|reflexivity]].
    perm_solve.
  - eapply Permutation_trans; [exact Hus|].
    eapply Permutation_trans;
      [apply Permutation_app_tail; symmetry; exact Ph|].
    perm_solve.
Qed.

Lemma stages_fresh (s : State) :
  stages [] [] s ->
  stages [(order_id s + 1)%Z] [] (set_order_id (order_id s + 1) s).
Proof.
  intros [Hc Ha Hus Hs]. constructor; unfold waiting in *; simpl; auto.
  - lia.
  - rewrite ids_upto_succ by exact Hc.
    eapply Permutation_trans; [|apply Permutation_app_tail; exact Ha].
    change ((order_id s + 1)%Z :: ?l) with ([(order_id s + 1)%Z] ++ l).
    simpl app. apply Permutation_cons_append.
Qed.

(** The orders of the processed event are in the stage the event left. *)
Lemma stages_dispatch (cfg : Config) (ev : Event) (s s' : State) :
  ev <> InitializeGenerator ->
  stages (pending_id ev) (holding_id ev) s ->
  dispatch cfg ev s = Running s' \/ dispatch cfg ev s = Stopped s' ->
  stages [] [] s'.
Proof.
  intros Hev Hs [H|H]; destruct ev; simpl in H; try discriminate;
    try congruence; injection H as <-; simpl in Hs; auto.
  - (* GeneratorTimeout *)
    apply stages_fresh in Hs.
    match goal with |- stages _ _ (order_generator_loop cfg ?t) =>
      destruct (order_generator_loop_queue cfg t) as (x & Hq & Hx & Ho);
      destruct (order_generator_loop_fields cfg t)
        as (_ & Hu & Hp & Hst & Hl & _)
    end.
    eapply (stages_extend _ _ _ _ _ _ [_; x]); [..|exact Hs]; simpl; auto.
    + rewrite Hq. simpl. rewrite <- app_assoc. reflexivity.
    + unfold collect. simpl.
      destruct Hx as [->|[e ->]]; simpl; reflexivity.
    + unfold collect. simpl.
      destruct Hx as [->|[e ->]]; simpl; reflexivity.
  - (* InitializeOrder *)
    rewrite order_start_eq.
    eapply (stages_extend _ _ _ _ _ _ [_]); [..|exact Hs]; simpl; auto;
      reflexivity.
  - (* PrepTimeout *)
    unfold order_ready, request. apply stages_trigger_put.
    destruct Hs as [Hc Ha Hus Hs].
    constructor; unfold waiting in *; simpl; auto.
    + rewrite map_app, completed_snoc. simpl.
      eapply Permutation_trans; [|exact Ha].
      change (order_id0 :: ?l) with ([order_id0] ++ l).
      perm_solve.
    + rewrite completed_snoc, app_nil_r. exact Hs.
  - (* RequestGranted *)
    rewrite order_assigned_eq.
    eapply (stages_extend _ _ _ _ _ _ [_]); [..|exact Hs]; simpl; auto;
      reflexivity.
  - (* DeliveryTimeout *)
    unfold order_complete, release.
    destruct Hs as [Hc Ha Hus Hs].
    constructor; unfold waiting in *; simpl; auto.
    + rewrite !collect_snoc, !completed_snoc. cbn [event pending_id holding_id].
      eapply Permutation_trans; [|exact Ha].
      perm_solve.
    + rewrite !collect_snoc. cbn [event holding_id]. rewrite !app_nil_r.
      apply remove_request_perm. exact Hus.
    + rewrite map_app, !completed_snoc, Hs, app_nil_r. reflexivity.
  - (* ReleaseDone *)
    now apply stages_trigger_put.
Qed.

(** What is popped before the arrival generator has started. *)
Lemma before_start_pop (s : State) (x : Scheduled) (q : list Scheduled) :
  before_start s -> heappop (queue s) = Some (x, q) ->
  (event x = InitializeGenerator /\
   (q = [] \/ exists u, q = [u] /\ event u = Until)) \/
  (event x = Until /\ exists y, q = [y] /\ event y = InitializeGenerator).
Proof.
  intros [_ [(y & u & Hq & Hy & Hu)|(y & Hq & Hy)]] Hpop;
    rewrite Hq in Hpop; simpl in Hpop.
  - destruct (entry_lt u y); injection Hpop as <- <-.
    + right. split; [exact Hu|]. exists y; auto.
    + left. split; [exact Hy|]. right. exists u; auto.
  - injection Hpop as <- <-. left. auto.
Qed.

Lemma stages_pop (s : State) (x : Scheduled) (q : list Scheduled) :
  stages [] [] s -> heappop (queue s) = Some (x, q) ->
  stages (pending_id (event x)) (holding_id (event x)) (set_clock (due x) q s).
Proof.
  intros [Hc Ha Hus Hs] Hpop. apply heappop_perm in Hpop.
  pose proof (collect_perm pending_id _ _ Hpop) as Hp.
  pose proof (collect_perm holding_id _ _ Hpop) as Hh.
  change (collect pending_id (x :: q))
    with (pending_id (event x) ++ collect pending_id q) in Hp.
  change (collect holding_id (x :: q))
    with (holding_id (event x) ++ collect holding_id q) in Hh.
  constructor; unfold waiting in *; simpl; auto.
  - eapply Permutation_trans; [|exact Ha]. simpl.
    rewrite app_assoc. 
    eapply Permutation_trans;
      [apply Permutation_app; [symmetry; exact Hp|];
       apply Permutation_app_head; symmetry; rewrite app_assoc;
       apply Permutation_app_tail; exact Hh|].
    reflexivity.
  - eapply Permutation_trans; [exact Hus|]. exact Hh.
Qed.

Lemma lifecycle_step (cfg : Config) (s s' : State) :
  lifecycle_inv s -> step_to cfg s s' -> lifecycle_inv s'.
Proof.
  intros Hs Hst.
  destruct (step_to_dispatch _ _ _ Hst) as (x & q & Hpop & Hd).
  destruct Hs as [(Hbefore & Hid & Hus & Hpq & Hstats)|[Hafter Hstages]].
  - pose proof Hbefore as [Hlog _].
    destruct (before_start_pop _ _ _ Hbefore Hpop)
      as [(Hx & Hq)|(Hx & y & Hq & Hy)].
    + right. rewrite Hx in Hd. simpl in Hd.
      destruct Hd as [Hd|Hd]; [|discriminate]. injection Hd as <-.
      match goal with |- after_start (order_generator_loop cfg ?t) /\ _ =>
        destruct (order_generator_loop_queue cfg t) as (z & Hz & Hpz & Ho);
        destruct (order_generator_loop_fields cfg t)
          as (_ & Hu' & Hp' & Hst' & Hl' & _)
      end.
      pose proof (resumed_not_pending _ Hpz) as [Hz1 Hz2].
      assert (Hq0 : Forall (fun y => event y = Until) q).
      { destruct Hq as [->|(u & -> & Hu)]; repeat constructor; auto. }
      split.
      * unfold after_start. rewrite Hz. simpl.
        apply Forall_app; split.
        -- eapply Forall_impl; [|exact Hq0]. simpl. intros a ->. discriminate.
        -- constructor; [exact Hz2|constructor].
      * assert (Hnone : forall (f : Event -> list Z), f Until = [] ->
                          f (event z) = [] -> collect f (q ++ [z]) = []).
        { intros f Hf Hfz. rewrite collect_snoc, Hfz, app_nil_r.
          clear - Hq0 Hf. induction Hq0 as [|a q Ha Hq IH]; [reflexivity|].
          unfold collect in *. simpl. rewrite Ha, Hf, IH. reflexivity. }
        assert (Hzh : holding_id (event z) = [])
          by (destruct Hpz as [->|[e ->]]; reflexivity).
        constructor; unfold waiting; rewrite ?Ho, ?Hu', ?Hp', ?Hst', ?Hl', ?Hz;
          simpl; rewrite ?Hnone, ?Hlog, ?Hus, ?Hpq, ?Hstats; auto;
          try reflexivity; try lia; constructor.
    + left. rewrite Hx in Hd. simpl in Hd.
      destruct Hd as [Hd|Hd]; [discriminate|]. injection Hd as <-.
      repeat split; auto. simpl. right. exists y. auto.
  - right.
    assert (Hperm := heappop_perm _ _ _ Hpop).
    assert (Hx : event x <> InitializeGenerator).
    { unfold after_start in Hafter. rewrite Forall_forall in Hafter.
      apply Hafter. apply (Permutation_in _ (Permutation_sym Hperm)). now left. }
    split.
    + eapply dispatch_after_start; [|exact Hd].
      unfold after_start in *. simpl.
      rewrite Forall_forall in *. intros y Hy. apply Hafter.
      apply (Permutation_in _ (Permutation_sym Hperm)). now right.
    + eapply stages_dispatch; [exact Hx| |exact Hd].
      now apply stages_pop.
Qed.

Lemma lifecycle_reachable (cfg : Config) (n : Z) (g : rng_state) (s0 s : State) :
  setup cfg n g = inr s0 -> reachable cfg s0 s -> lifecycle_inv s.
Proof.
  intros Hsetup. apply reachable_ind_inv.
  - revert Hsetup. unfold setup. destruct (n <=? 0)%Z; [discriminate|].
    destruct (Qle_bool (SIM_TIME cfg) _); [discriminate|].
    intros H; injection H as <-. left. repeat split.
    left. simpl. eexists; eexists; repeat split.
  - intros t t'; apply lifecycle_step.
Qed.

(** The stage lists of a reachable state. *)
Lemma lifecycle_lists (cfg : Config) (n : Z) (g : rng_state) (s0 s : State) :
  setup cfg n g = inr s0 -> reachable cfg s0 s ->
  (0 <= order_id s)%Z /\
  Permutation
    (collect pending_id (queue s) ++ waiting s ++
     collect holding_id (queue s) ++ map Order_ID (stats s))
    (ids_upto (order_id s)) /\
  Permutation (map req_order_id (users s)) (collect holding_id (queue s)).
Proof.
  intros Hsetup Hreach.
  destruct (lifecycle_reachable _ _ _ _ _ Hsetup Hreach)
    as [(Hbefore & Hid & Hus & Hpq & Hstats)|[_ [Hc Ha Hu Hs]]].
  - assert (Hnone : forall (f : Event -> list Z), f Until = [] ->
                      f InitializeGenerator = [] -> collect f (queue s) = []).
    { intros f H1 H2.
      destruct Hbefore as [_ [(y & u & -> & Hy & Hu)|(y & -> & Hy)]];
        unfold collect; simpl; rewrite ?Hy, ?Hu, ?H1, ?H2; reflexivity. }
    unfold waiting. rewrite Hid, Hus, Hpq, Hstats, !Hnone by reflexivity.
    simpl. repeat split; try lia; constructor.
  - rewrite Hs. simpl in Ha, Hu. auto.
Qed.

(** X8. No order is lost or counted twice: in every state of a run the
    orders started so far, numbered 1 to the counter of [order_generator],
    are exactly the orders in preparation, the orders waiting for a driver,
    the orders with a driver and the orders recorded in [stats]; so the
    sizes of the four groups add up to the counter. *)
Theorem orders_accounted (cfg : Config) (num_drivers : Z) (g : rng_state)
    (s0 s : State) :
  setup cfg num_drivers g = inr s0 ->
  reachable cfg s0 s ->
  Permutation
    (collect pending_id (queue s) ++ waiting s ++
     collect holding_id (queue s) ++ map Order_ID (stats s))
    (ids_upto (order_id s)) /\
  Z.of_nat (length (collect pending_id (queue s)) + length (put_queue s) +
            length (users s) + length (stats s)) = order_id s.
Proof.
  intros Hsetup Hreach.
  destruct (lifecycle_lists _ _ _ _ _ Hsetup Hreach) as (Hc & Ha & Hu).
  split; [exact Ha|].
  apply Permutation_length in Ha. apply Permutation_length in Hu.
  unfold waiting, ids_upto in Ha.
  rewrite !length_app, !length_map, length_seq in Ha.
  rewrite length_map in Hu. lia.
Qed.

(** X9. The records of [stats] carry distinct order numbers, each between 1
    and the number of orders started. *)
Theorem records_numbered (cfg : Config) (num_drivers : Z) (g : rng_state)
    (s0 s : State) :
  setup cfg num_drivers g = inr s0 ->
  reachable cfg s0 s ->
  NoDup (map Order_ID (stats s)) /\
  (forall rec, In rec (stats s) -> (1 <= Order_ID rec <= order_id s)%Z) /\
  (Z.of_nat (length (stats s)) <= order_id s)%Z.
Proof.
  intros Hsetup Hreach.
  destruct (lifecycle_lists _ _ _ _ _ Hsetup Hreach) as (Hc & Ha & Hu).
  pose proof (Permutation_NoDup (Permutation_sym Ha) (ids_upto_NoDup _)) as Hnd.
  split; [|split].
  - do 3 apply NoDup_app_remove_l in Hnd. exact Hnd.
  - intros rec Hin. apply ids_upto_spec. apply (Permutation_in _ Ha).
    do 3 (apply in_or_app; right). apply in_map. exact Hin.
  - apply Permutation_length in Ha. unfold ids_upto in Ha.
    rewrite !length_app, !length_map, length_seq in Ha. lia.
Qed.

(** X10. The drivers in use are held by exactly the orders that were granted
    one and have not completed their delivery (their grant or their delivery
    timeout is pending): no driver is held twice, none is kept by an order
    that has completed, and when no such event is pending all drivers are
    free. *)
Theorem drivers_held_by_deliveries (cfg : Config) (num_drivers : Z)
    (g : rng_state) (s0 s : State) :
  setup cfg num_drivers g = inr s0 ->
  reachable cfg s0 s ->
  Permutation (map req_order_id (users s)) (collect holding_id (queue s)) /\
  NoDup (map req_order_id (users s)) /\
  (forall u rec, In u (users s) -> In rec (stats s) ->
     req_order_id u <> Order_ID rec) /\
  (collect holding_id (queue s) = [] -> users s = []).
Proof.
  intros Hsetup Hreach.
  destruct (lifecycle_lists _ _ _ _ _ Hsetup Hreach) as (Hc & Ha & Hu).
  pose proof (Permutation_NoDup (Permutation_sym Ha) (ids_upto_NoDup _)) as Hnd.
  do 2 apply NoDup_app_remove_l in Hnd.
  split; [exact Hu|]. split; [|split].
  - apply (Permutation_NoDup (Permutation_sym Hu)).
    apply NoDup_app_remove_r in Hnd. exact Hnd.
  - intros u rec Hin Hrec E.
    assert (H1 : In (req_order_id u) (collect holding_id (queue s)))
      by (apply (Permutation_in _ Hu), in_map, Hin).
    assert (H2 : In (req_order_id u) (map Order_ID (stats s)))
      by (rewrite E; apply in_map, Hrec).
    clear - Hnd H1 H2.
    induction (collect holding_id (queue s)) as [|a l IH]; [contradiction|].
    simpl in Hnd. inversion Hnd as [|? ? Hna Hnd']; subst.
    destruct H1 as [->|H1]; [|auto].
    apply Hna. apply in_or_app. now right.
  - intros E. rewrite E in Hu. apply Permutation_sym, Permutation_nil in Hu.
    destruct (users s); [reflexivity|discriminate].
Qed.

(** ** Work conservation *)

Lemma remove_request_length_ge (id : Z) (us : list Request) :
  (length us <= S (length (remove_request id us)))%nat.
Proof.
  induction us as [|u us IH]; simpl; [lia|].
  destruct (Z.eqb (req_order_id u) id); simpl; lia.
Qed.

Lemma collect_release_in (q : list Scheduled) :
  (0 < length (collect release_mark q))%nat ->
  exists x, In x q /\ event x = ReleaseDone.
Proof.
  unfold collect. induction q as [|y q IH]; simpl; [lia|].
  rewrite length_app. intros H.
  destruct (event y) eqn:E;
    try (simpl in H; destruct (IH H) as (x & Hx & Hev); exists x; auto).
  exists y. auto.
Qed.

(** A step that leaves the resource alone and adds no release. *)
Lemma work_extend (s s' : State) (l : list Scheduled) :
  capacity s' = capacity s -> users s' = users s ->
  put_queue s' = put_queue s -> now s' = now s ->
  queue s' = queue s ++ l ->
  Forall (fun x => event x <> ReleaseDone) l ->
  work_inv 0 s -> work_inv 0 s'.
Proof.
  intros Hc Hu Hp Hn Hq Hl [Hf Hd].
  assert (Hnone : collect release_mark l = []).
  { clear - Hl. unfold collect. induction Hl as [|x l Hx Hl IH]; [reflexivity|].
    simpl. rewrite IH. destruct (event x); try reflexivity. contradiction. }
  constructor; rewrite ?Hc, ?Hu, ?Hp, ?Hn, ?Hq.
  - rewrite collect_app, Hnone, app_nil_r. exact Hf.
  - apply Forall_app; split; [exact Hd|].
    eapply Forall_impl; [|exact Hl]. simpl. intros x Hx E. contradiction.
Qed.

(** [_trigger_put] uses up one release. *)
Lemma work_trigger_put (s : State) :
  tl (put_queue s) = [] \/
  (capacity s - Z.of_nat (length (users s)) <=
   Z.of_nat (1 + length (collect release_mark (queue s))))%Z ->
  Forall (fun x => event x = ReleaseDone -> due x == now s) (queue s) ->
  work_inv 0 (trigger_put s).
Proof.
  intros Hf Hd. unfold trigger_put.
  destruct (put_queue s) as [|r rest] eqn:E.
  - constructor; [left; exact E|exact Hd].
  - destruct (Z.ltb_spec (Z.of_nat (length (users s))) (capacity s)) as [Hlt|Hge].
    + constructor; simpl.
      * destruct Hf as [Hf|Hf]; [left; exact Hf|right].
        rewrite collect_snoc, !length_app. simpl. lia.
      * apply Forall_app; split; [exact Hd|].
        constructor; [simpl; discriminate|constructor].
    + constructor; [right; simpl; lia|exact Hd].
Qed.

(** With the release of the processed event counted in. *)
Lemma work_dispatch (cfg : Config) (ev : Event) (s s' : State) :
  work_inv (length (release_mark ev)) s ->
  dispatch cfg ev s = Running s' \/ dispatch cfg ev s = Stopped s' ->
  work_inv 0 s'.
Proof.
  intros Hs [H|H]; destruct ev; simpl in H; try discriminate;
    injection H as <-; simpl in Hs; auto.
  - (* InitializeGenerator *)
    match goal with |- work_inv 0 (order_generator_loop cfg ?t) =>
      destruct (order_generator_loop_queue cfg t) as (x & Hq & Hx & Ho);
      destruct (order_generator_loop_fields cfg t)
        as (Hc & Hu & Hp & _ & _ & Hn)
    end.
    apply (work_extend s _ [x]); auto.
    constructor; [|constructor]. destruct Hx as [->|[e ->]]; discriminate.
  - (* GeneratorTimeout *)
    match goal with |- work_inv 0 (order_generator_loop cfg ?t) =>
      destruct (order_generator_loop_queue cfg t) as (x & Hq & Hx & Ho);
      destruct (order_generator_loop_fields cfg t)
        as (Hc & Hu & Hp & _ & _ & Hn)
    end.
    eapply (work_extend s _ [_; x]); [..|exact Hs]; auto.
    + rewrite Hq. simpl. rewrite <- app_assoc. reflexivity.
    + constructor; [simpl; discriminate|].
      constructor; [|constructor]. destruct Hx as [->|[e ->]]; discriminate.
  - (* InitializeOrder *)
    rewrite order_start_eq.
    eapply (work_extend s _ [_]); [..|exact Hs]; simpl; auto.
    constructor; [simpl; discriminate|constructor].
  - (* PrepTimeout *)
    unfold order_ready, request. destruct Hs as [Hf Hd].
    apply work_trigger_put; simpl; [|exact Hd].
    destruct Hf as [->|Hf]; [left; reflexivity|right; lia].
  - (* RequestGranted *)
    rewrite order_assigned_eq.
    eapply (work_extend s _ [_]); [..|exact Hs]; simpl; auto.
    constructor; [simpl; discriminate|constructor].
  - (* DeliveryTimeout *)
    unfold order_complete, release. destruct Hs as [Hf Hd].
    constructor; simpl.
    + destruct Hf as [Hf|Hf]; [left; exact Hf|right].
      rewrite !collect_snoc, !length_app. simpl.
      pose proof (remove_request_length_ge (req_order_id r) (users s)). lia.
    + repeat (apply Forall_app; split); auto;
        (constructor; [simpl|constructor]); intros; try discriminate; lra.
  - (* ReleaseDone *)
    destruct Hs as [Hf Hd]. apply work_trigger_put; [|exact Hd].
    destruct Hf as [->|Hf]; [left; reflexivity|right; exact Hf].
Qed.

Lemma work_step (cfg : Config) (s s' : State) :
  timing_inv s -> work_inv 0 s -> step_to cfg s s' -> work_inv 0 s'.
Proof.
  intros Ht [Hf Hd] Hst.
  destruct (step_to_dispatch _ _ _ Hst) as (x & q & Hpop & Hdis).
  eapply work_dispatch; [|exact Hdis].
  pose proof (heappop_perm _ _ _ Hpop) as Hperm.
  destruct (heappop_In _ _ _ Hpop) as [Hx Hincl].
  pose proof (inv_queue s Ht) as Hq. rewrite Forall_forall in Hq.
  destruct (Hq x Hx) as [Hnow _].
  constructor; simpl.
  - destruct Hf as [Hf|Hf]; [left; exact Hf|right].
    pose proof (Permutation_length (collect_perm release_mark _ _ Hperm)) as Hlen.
    change (collect release_mark (x :: q))
      with (release_mark (event x) ++ collect release_mark q) in Hlen.
    rewrite length_app in Hlen. lia.
  - rewrite Forall_forall in *. intros y Hy Hev.
    pose proof (Hd y (Hincl y Hy) Hev) as Hdue.
    assert (due x <= due y) by (eapply heappop_le; eauto). lra.
Qed.

Lemma work_reachable (cfg : Config) (n : Z) (g : rng_state) (s0 s : State) :
  setup cfg n g = inr s0 -> reachable cfg s0 s -> work_inv 0 s.
Proof.
  intros Hsetup Hreach.
  assert (timing_inv s /\ work_inv 0 s) as [_ H]; [|exact H].
  apply (reachable_ind_inv cfg (fun t => timing_inv t /\ work_inv 0 t) s0);
    [ | | exact Hreach].
  - split; [eapply timing_setup; eauto|].
    revert Hsetup. unfold setup. destruct (n <=? 0)%Z; [discriminate|].
    destruct (Qle_bool (SIM_TIME cfg) _); [discriminate|].
    intros H; injection H as <-.
    constructor; simpl; [left; reflexivity|].
    repeat (constructor; [simpl; discriminate|]). constructor.
  - intros t t' [Ht Hw] Hst; split.
    + eapply timing_step; eauto.
    + eapply work_step; eauto.
Qed.

(** X11. No driver stays idle while an order waits: if an order is waiting
    although fewer drivers are held than the capacity, then a release made at
    the current time has still to be processed (processing it gives the
    driver to the order at the head of the queue). *)
Theorem no_idle_driver_while_waiting (cfg : Config) (num_drivers : Z)
    (g : rng_state) (s0 s : State) :
  setup cfg num_drivers g = inr s0 ->
  reachable cfg s0 s ->
  put_queue s <> [] ->
  (Z.of_nat (length (users s)) < capacity s)%Z ->
  exists x, In x (queue s) /\ event x = ReleaseDone /\ due x == now s.
Proof.
  intros Hsetup Hreach Hwait Hfree.
  destruct (work_reachable _ _ _ _ _ Hsetup Hreach) as [Hf Hd].
  destruct Hf as [Hf|Hf]; [contradiction|].
  destruct (collect_release_in (queue s)) as (x & Hx & Hev); [simpl in Hf; lia|].
  exists x. repeat split; auto.
  rewrite Forall_forall in Hd. auto.
Qed.

(** ** Orders that never wait *)

Lemma step_stopped_stats (cfg : Config) (s s' : State) :
  step cfg s = Stopped s' -> stats s' = stats s.
Proof.
  unfold step. destruct (heappop (queue s)) as [[x q]|]; [|discriminate].
  destruct (event x); simpl; try discriminate.
  intros H; injection H as <-. reflexivity.
Qed.

Lemma prompt_dispatch (cfg : Config) (ev : Event) (s s' : State) :
  put_queue s = [] ->
  Forall prompt_event (queue s) ->
  Forall (fun rec => Wait_For_Driver rec == 0) (stats s) ->
  (forall r, ev = RequestGranted r -> now s == req_ready_time r) ->
  (forall r d w, ev = DeliveryTimeout r d w -> w == 0) ->
  dispatch cfg ev s = Running s' -> put_queue s' = [] ->
  Forall prompt_event (queue s') /\
  Forall (fun rec => Wait_For_Driver rec == 0) (stats s').
Proof.
  intros Hp Hq Hst Hg Hd H; destruct ev; simpl in H; try discriminate;
    injection H as <-.
  - intros _.
    destruct (order_generator_loop_fields cfg (set_order_id 0 s))
      as (_ & _ & _ & Hs & _).
    destruct (order_generator_loop_queue cfg (set_order_id 0 s))
      as (x & Hx & Hev & _).
    rewrite Hs, Hx. simpl. split; [|exact Hst].
    apply Forall_app; split; [exact Hq|]. constructor; [|constructor].
    unfold prompt_event. destruct Hev as [->|[e ->]]; exact I.
  - intros _.
    match goal with |- context [order_generator_loop cfg ?t] =>
      destruct (order_generator_loop_fields cfg t) as (_ & _ & _ & Hs & _);
      destruct (order_generator_loop_queue cfg t) as (x & Hx & Hev & _) end.
    rewrite Hs, Hx. simpl. split; [|exact Hst].
    repeat (apply Forall_app; split); [exact Hq| |];
      (constructor; [|constructor]); unfold prompt_event; simpl; [exact I|].
    destruct Hev as [->|[e ->]]; exact I.
  - intros _. rewrite order_start_eq. simpl. split; [|exact Hst].
    apply Forall_app; split; [exact Hq|]. constructor; [exact I|constructor].
  - unfold order_ready, request, trigger_put. simpl. rewrite Hp. simpl.
    destruct (Z.of_nat (length (users s)) <? capacity s)%Z; simpl;
      [|discriminate].
    intros _. split; [|exact Hst].
    apply Forall_app; split; [exact Hq|]. constructor; [|constructor].
    unfold prompt_event; simpl. lra.
  - intros _. rewrite order_assigned_eq. simpl. split; [|exact Hst].
    apply Forall_app; split; [exact Hq|]. constructor; [|constructor].
    unfold prompt_event; simpl. pose proof (Hg r eq_refl). lra.
  - intros _. unfold order_complete, release. simpl. split.
    + repeat (apply Forall_app; split); [exact Hq| |];
        (constructor; [exact I|constructor]).
    + apply Forall_app; split; [exact Hst|].
      constructor; [simpl; eapply Hd; reflexivity|constructor].
  - intros _. unfold trigger_put. rewrite Hp. auto.
  - auto.
Qed.

Lemma prompt_running (cfg : Config) (s s' : State) :
  prompt_inv s -> step cfg s = Running s' -> put_queue s' = [] ->
  prompt_inv s'.
Proof.
  intros [Hp Hq Hst] Hstep Hp'.
  destruct (step_running _ _ _ Hstep) as (x & q & Hpop & Hd & _).
  destruct (heappop_In _ _ _ Hpop) as [Hxin Hincl].
  rewrite Forall_forall in Hq. pose proof (Hq x Hxin) as Hx.
  unfold prompt_event in Hx.
  destruct (prompt_dispatch cfg (event x) (set_clock (due x) q s) s');
    simpl; auto.
  - apply Forall_forall. intros y Hy. apply Hq, Hincl, Hy.
  - intros r E. rewrite E in Hx. exact Hx.
  - intros r d w E. rewrite E in Hx. exact Hx.
  - now constructor.
Qed.

Lemma no_waiting_stats (cfg : Config) (fuel : nat) (s0 s : State) :
  prompt_inv s0 -> no_waiting cfg fuel s0 = true ->
  run cfg fuel s0 = Returned s ->
  Forall (fun rec => Wait_For_Driver rec == 0) (stats s).
Proof.
  revert s0; induction fuel as [|k IH]; intros s0 H0; simpl; [discriminate|].
  destruct (step cfg s0) as [s1|s1|e] eqn:E; intros Hw H.
  - destruct (put_queue s1) eqn:Hp; [|discriminate].
    apply (IH s1); auto. eapply prompt_running; eauto.
  - injection H as <-. rewrite (step_stopped_stats _ _ _ E).
    apply (prompt_stats _ H0).
  - discriminate.
Qed.

Lemma summarize_wait_upper (n : Z) (st : list OrderRecord) (sm : Summary)
    (w1 : Q) (k : Z) :
  w1 * 100 == inject_Z k ->
  summarize n st = Returned sm ->
  (forall rec, In rec st -> Wait_For_Driver rec <= w1) ->
  Avg_Wait_Time sm <= w1.
Proof.
  intros Ew. unfold summarize. destruct st as [|rec st]; [discriminate|].
  intros H Hb; injection H as <-. simpl Avg_Wait_Time.
  apply (round2_upper k); [exact Ew|]. simpl map.
  apply (mean_upper _ _ (map Wait_For_Driver st)).
  apply (Forall_map_column Wait_For_Driver _ (rec :: st)). exact Hb.
Qed.

(** X12. When no request is ever left in the queue of the resource, every
    order gets its driver at the moment it is ready: each record of the run
    has a wait of 0, and so has the summary. *)
Theorem no_waiting_no_wait (cfg : Config) (fuel : nat) (num_drivers : Z)
    (g : rng_state) (s0 : State) :
  setup cfg num_drivers g = inr s0 ->
  no_waiting cfg fuel s0 = true ->
  (forall s rec, simulate cfg fuel num_drivers g = Returned s ->
     In rec (stats s) -> Wait_For_Driver rec == 0) /\
  (forall sm, run_simulation cfg fuel num_drivers g = Returned sm ->
     Avg_Wait_Time sm == 0).
Proof.
  intros Hsetup Hw.
  assert (H0 : prompt_inv s0).
  { revert Hsetup. unfold setup. destruct (num_drivers <=? 0)%Z; [discriminate|].
    destruct (Qle_bool (SIM_TIME cfg) _); [discriminate|].
    intros H; injection H as <-. constructor; simpl; repeat constructor. }
  assert (Hall : forall s, simulate cfg fuel num_drivers g = Returned s ->
                   Forall (fun rec => Wait_For_Driver rec == 0) (stats s)).
  { intros s. unfold simulate. rewrite Hsetup. now apply no_waiting_stats. }
  split.
  - intros s rec Hsim Hin. specialize (Hall s Hsim).
    rewrite Forall_forall in Hall. now apply Hall.
  - intros sm. unfold run_simulation.
    destruct (simulate cfg fuel num_drivers g) as [s|e|] eqn:Hsim;
      try discriminate.
    intros Hsum. specialize (Hall s eq_refl). rewrite Forall_forall in Hall.
    assert (Hlo : 0 <= Avg_Wait_Time sm).
    { apply (summarize_bounds num_drivers (stats s) sm 0 0 0 100 0 0 0 10000);
        try reflexivity; [exact Hsum|].
      intros rec Hin. pose proof (Hall rec Hin) as Hz.
      destruct (record_in_horizon _ _ _ _ _ _ Hsim Hin)
        as (a & r & d & c & Hwr & Htr & Hb).
      pose proof (flag_percent (SLA_Met rec)) as [Hf0 Hf1].
      rewrite Htr. repeat split; auto; lra. }
    assert (Hhi : Avg_Wait_Time sm <= 0).
    { apply (summarize_wait_upper num_drivers (stats s) sm 0 0);
        [reflexivity|exact Hsum|].
      intros rec Hin. pose proof (Hall rec Hin). lra. }
    lra.
Qed.

(** ** Arrival and completion order *)

Lemma dispatch_now (cfg : Config) (ev : Event) (s s' : State) :
  dispatch cfg ev s = Running s' \/ dispatch cfg ev s = Stopped s' ->
  now s' = now s.
Proof.
  intros [H|H]; destruct ev; simpl in H; try discriminate;
    injection H as <-; split_ops; reflexivity.
Qed.

Lemma arrivals_frame (s s' : State) (l : list Scheduled) :
  queue s' = queue s ++ l -> put_queue s' = put_queue s -> log s' = log s ->
  forall p, In p (arrivals s') <->
            In p (arrivals s) \/ In p (flat_map arrival_of l).
Proof.
  intros Hq Hp Hl p. unfold arrivals.
  rewrite Hq, Hp, Hl, flat_map_app, !in_app_iff. tauto.
Qed.

Lemma arrivals_order_generator_loop (cfg : Config) (s : State) (p : Z * Q) :
  In p (arrivals (order_generator_loop cfg s)) <-> In p (arrivals s).
Proof.
  destruct (order_generator_loop_fields cfg s) as (_ & _ & Hp & _ & Hl & _).
  destruct (order_generator_loop_queue cfg s) as (x & Hq & Hx & _).
  rewrite (arrivals_frame s _ [x] Hq Hp Hl). simpl. unfold arrival_of.
  destruct Hx as [->|[e ->]]; simpl; tauto.
Qed.

Lemma arrivals_trigger_put (s : State) (p : Z * Q) :
  In p (arrivals (trigger_put s)) -> In p (arrivals s).
Proof.
  unfold trigger_put. destruct (put_queue s) as [|r rest] eqn:E; [auto|].
  destruct (Z.of_nat (length (users s)) <? capacity s)%Z; [|auto].
  unfold arrivals. simpl. rewrite E.
  rewrite !flat_map_app, !in_app_iff. simpl. tauto.
Qed.

Lemma arrivals_dispatch (cfg : Config) (ev : Event) (t s' : State) :
  dispatch cfg ev t = Running s' \/ dispatch cfg ev t = Stopped s' ->
  forall p, In p (arrivals s') ->
    In p (arrivals t) \/
    In p (arrival_of {| due := now t; priority := NORMAL; eid := O;
                        event := ev |}) \/
    (ev = GeneratorTimeout /\ p = ((order_id t + 1)%Z, now t + 0)).
Proof.
  intros [H|H]; destruct ev; simpl in H; try discriminate;
    injection H as <-; intros p Hp; unfold arrival_of; simpl.
  - apply arrivals_order_generator_loop in Hp. left; exact Hp.
  - apply arrivals_order_generator_loop in Hp.
    unfold arrivals in *. simpl in Hp.
    rewrite flat_map_app, !in_app_iff in Hp. rewrite !in_app_iff.
    simpl in Hp. intuition.
  - rewrite order_start_eq in Hp. unfold arrivals in *. simpl in Hp.
    rewrite flat_map_app, !in_app_iff in Hp. rewrite !in_app_iff.
    simpl in Hp. tauto.
  - unfold order_ready, request in Hp. apply arrivals_trigger_put in Hp.
    unfold arrivals in *. simpl in Hp.
    rewrite flat_map_app, map_app, !in_app_iff in Hp. rewrite !in_app_iff.
    simpl in Hp. tauto.
  - rewrite order_assigned_eq in Hp. unfold arrivals in *. simpl in Hp.
    rewrite flat_map_app, !in_app_iff in Hp. rewrite !in_app_iff.
    simpl in Hp. tauto.
  - unfold order_complete, release, arrivals in *. simpl in Hp.
    rewrite !flat_map_app, !in_app_iff in Hp. rewrite !in_app_iff.
    simpl in Hp. tauto.
  - apply arrivals_trigger_put in Hp. left; exact Hp.
  - left; exact Hp.
  - left; exact Hp.
Qed.

Lemma arrivals_ids (s : State) (i : Z) (a : Q) :
  In (i, a) (arrivals s) ->
  In i (collect pending_id (queue s) ++ waiting s ++
        collect holding_id (queue s) ++ completed (log s)).
Proof.
  unfold arrivals, collect, waiting, completed.
  rewrite !in_app_iff, !in_flat_map, !in_map_iff.
  intros [(y & Hy & Hin)|[(r & Hr & Hin)|(o & Ho & Hin)]].
  - unfold arrival_of in Hin. destruct (event y) eqn:E; simpl in Hin;
      try contradiction; destruct Hin as [Hin|[]]; injection Hin as <- <-;
      [left|left|right; right; left|right; right; left];
      exists y; rewrite E; simpl; auto.
  - injection Hr as <- <-. right; left. exists r; auto.
  - destruct o; simpl in Hin; try contradiction.
    destruct Hin as [Hin|[]]; injection Hin as <- <-.
    right; right; right. eexists; split; [exact Ho|]. simpl; auto.
Qed.

Lemma lifecycle_ids (s : State) (i : Z) (a : Q) :
  lifecycle_inv s -> In (i, a) (arrivals s) -> (i <= order_id s)%Z.
Proof.
  intros [(Hbefore & Hid & Hus & Hpq & Hstats)|[_ [_ Hall _ _]]] Hin;
    apply arrivals_ids in Hin.
  - exfalso. revert Hin. unfold waiting. rewrite Hpq.
    destruct Hbefore as [Hlog [(y & u & Hq & Hy & Hu)|(y & Hq & Hy)]];
      rewrite Hq, Hlog; unfold collect; simpl; rewrite ?Hy, ?Hu; simpl; auto.
  - simpl in Hall. apply (Permutation_in _ Hall) in Hin.
    apply ids_upto_spec in Hin. lia.
Qed.

Lemma arrival_step (cfg : Config) (s s' : State) :
  timing_inv s -> lifecycle_inv s -> arrival_inv s -> step_to cfg s s' ->
  arrival_inv s'.
Proof.
  intros Ht Hlife [Hnow Hord] Hst.
  destruct (step_to_dispatch _ _ _ Hst) as (x & q & Hpop & Hd).
  destruct (heappop_In _ _ _ Hpop) as [Hxin Hincl].
  pose proof (inv_queue s Ht) as Hq. rewrite Forall_forall in Hq.
  destruct (Hq x Hxin) as [Hle _].
  pose proof (dispatch_now _ _ _ _ Hd) as Hn. simpl in Hn.
  assert (Hold : forall p, In p (arrivals (set_clock (due x) q s)) \/
                           In p (arrival_of x) -> In p (arrivals s)).
  { intros p. unfold arrivals. simpl. rewrite !in_app_iff, !in_flat_map.
    intros [[(y & Hy & Hp)|H]|Hp]; auto; left; eauto. }
  assert (Hcase : forall p, In p (arrivals s') ->
            In p (arrivals s) \/ p = ((order_id s + 1)%Z, due x + 0)).
  { intros p Hp.
    destruct (arrivals_dispatch _ _ _ _ Hd p Hp) as [H|[H|[_ H]]].
    - left. apply Hold. now left.
    - left. apply Hold. right. exact H.
    - right. exact H. }
  split.
  - intros i a Hin. rewrite Hn.
    destruct (Hcase _ Hin) as [H|H].
    + pose proof (Hnow _ _ H). lra.
    + injection H as _ ->. lra.
  - intros i a j b Hi Hj Hlt.
    destruct (Hcase _ Hi) as [Hi'|Hi'], (Hcase _ Hj) as [Hj'|Hj'].
    + eapply Hord; eauto.
    + injection Hj' as _ ->. pose proof (Hnow _ _ Hi'). lra.
    + injection Hi' as -> _. pose proof (lifecycle_ids _ _ _ Hlife Hj'). lia.
    + injection Hi' as -> _. injection Hj' as -> _. lia.
Qed.

Lemma arrival_reachable (cfg : Config) (n : Z) (g : rng_state) (s0 s : State) :
  setup cfg n g = inr s0 -> reachable cfg s0 s -> arrival_inv s.
Proof.
  intros Hsetup Hreach.
  assert (H : timing_inv s /\ lifecycle_inv s /\ arrival_inv s);
    [|apply H].
  apply (reachable_ind_inv cfg
           (fun t => timing_inv t /\ lifecycle_inv t /\ arrival_inv t) s0);
    [ | | exact Hreach].
  - split; [eapply timing_setup; eauto|].
    split; [eapply lifecycle_reachable; [exact Hsetup|apply reach_start]|].
    revert Hsetup. unfold setup. destruct (n <=? 0)%Z; [discriminate|].
    destruct (Qle_bool (SIM_TIME cfg) _); [discriminate|].
    intros H; injection H as <-.
    split; unfold arrivals; simpl; intros; contradiction.
  - intros t t' (Ht & Hl & Ha) Hst. split; [|split].
    + eapply timing_step; eauto.
    + eapply lifecycle_step; eauto.
    + eapply arrival_step; eauto.
Qed.

(** X13. The order numbers follow the arrivals: of two orders started so
    far, in whatever stage they are, the one with the larger number arrived
    at the same time or later, and no order arrived after the present
    time. *)
Theorem ids_follow_arrivals (cfg : Config) (num_drivers : Z) (g : rng_state)
    (s0 s : State) :
  setup cfg num_drivers g = inr s0 ->
  reachable cfg s0 s ->
  (forall i a j b, In (i, a) (arrivals s) -> In (j, b) (arrivals s) ->
     (i < j)%Z -> a <= b) /\
  (forall i a, In (i, a) (arrivals s) ->
     a <= now s /\ (1 <= i <= order_id s)%Z).
Proof.
  intros Hsetup Hreach.
  destruct (arrival_reachable _ _ _ _ _ Hsetup Hreach) as [Hnow Hord].
  split; [exact Hord|].
  intros i a Hin. split; [eapply Hnow; eauto|].
  destruct (lifecycle_lists _ _ _ _ _ Hsetup Hreach) as (_ & Hall & _).
  assert (Hst : map Order_ID (stats s) = completed (log s)).
  { destruct (lifecycle_reachable _ _ _ _ _ Hsetup Hreach)
      as [([Hlog _] & _ & _ & _ & Hstats)|[_ [_ _ _ H]]]; [|exact H].
    rewrite Hlog, Hstats. reflexivity. }
  rewrite Hst in Hall.
  apply ids_upto_spec. apply (Permutation_in _ Hall).
  eapply arrivals_ids; eauto.
Qed.

Lemma sorted_snoc (l : list Q) (c : Q) :
  StronglySorted Qle l -> Forall (fun x => x <= c) l ->
  StronglySorted Qle (l ++ [c]).
Proof.
  induction 1 as [|x l Hl IH Hx]; intros Hc; simpl.
  - repeat constructor.
  - inversion Hc; subst. constructor; [auto|].
    apply Forall_app; split; [exact Hx|]. constructor; [assumption|constructor].
Qed.

Lemma completions_ids (l : list Obs) : map fst (completions l) = completed l.
Proof.
  induction l as [|o l IH]; [reflexivity|].
  unfold completions, completed in *. simpl. rewrite map_app, IH.
  destruct o; reflexivity.
Qed.

Lemma completion_dispatch (cfg : Config) (ev : Event) (s s' : State) :
  completion_inv s ->
  dispatch cfg ev s = Running s' \/ dispatch cfg ev s = Stopped s' ->
  completion_inv s'.
Proof.
  unfold completion_inv, completions.
  intros [Hs Hb] [H|H]; destruct ev; simpl in H; try discriminate;
    injection H as <-; split_ops;
    rewrite ?flat_map_app; simpl; rewrite ?app_nil_r; auto.
  rewrite map_app. simpl. split.
  - now apply sorted_snoc.
  - apply Forall_app; split; [exact Hb|]. constructor; [lra|constructor].
Qed.

Lemma completion_step (cfg : Config) (s s' : State) :
  timing_inv s -> completion_inv s -> step_to cfg s s' -> completion_inv s'.
Proof.
  intros Ht [Hs Hb] Hst.
  destruct (step_to_dispatch _ _ _ Hst) as (x & q & Hpop & Hd).
  destruct (heappop_In _ _ _ Hpop) as [Hxin _].
  pose proof (inv_queue s Ht) as Hq. rewrite Forall_forall in Hq.
  destruct (Hq x Hxin) as [Hle _].
  eapply completion_dispatch; [|exact Hd].
  split; simpl; [exact Hs|].
  eapply Forall_impl; [|exact Hb]. simpl. intros c Hc. lra.
Qed.

(** X14. The records of [stats] stand in the order in which the orders
    were completed: the completions of the log have the order numbers of
    the records, one for one, and their times never decrease. *)
Theorem records_in_completion_order (cfg : Config) (num_drivers : Z)
    (g : rng_state) (s0 s : State) :
  setup cfg num_drivers g = inr s0 ->
  reachable cfg s0 s ->
  map fst (completions (log s)) = map Order_ID (stats s) /\
  StronglySorted Qle (map snd (completions (log s))) /\
  Forall (fun c => c <= now s) (map snd (completions (log s))).
Proof.
  intros Hsetup Hreach. split.
  - rewrite completions_ids.
    destruct (lifecycle_reachable _ _ _ _ _ Hsetup Hreach)
      as [([Hlog _] & _ & _ & _ & Hstats)|[_ [_ _ _ H]]]; [|now symmetry].
    rewrite Hlog, Hstats. reflexivity.
  - assert (H : timing_inv s /\ completion_inv s); [|apply H].
    apply (reachable_ind_inv cfg
             (fun t => timing_inv t /\ completion_inv t) s0);
      [ | | exact Hreach].
    + split; [eapply timing_setup; eauto|].
      revert Hsetup. unfold setup. destruct (num_drivers <=? 0)%Z; [discriminate|].
      destruct (Qle_bool (SIM_TIME cfg) _); [discriminate|].
      intros H; injection H as <-. split; simpl; constructor.
    + intros t t' [Ht Hc] Hst. split.
      * eapply timing_step; eauto.
      * eapply completion_step; eauto.
Qed.

End Coverage.

(** * The sample runs *)

Ltac pick_member := solve [left; reflexivity | right; pick_member].

(** At time 18 of the run with one driver, order 1 holds the driver and
    order 2 is the only one waiting. *)
Example one_driver_busy_state :
  now one_driver_busy == 18 /\
  map req_order_id (users one_driver_busy) = [1%Z] /\
  map req_order_id (put_queue one_driver_busy) = [2%Z].
Proof. repeat split. Qed.

(** The summary of that run: waits 0 and 10.5, totals 27 and 37.5, one of
    the two orders within the SLA target of 30. *)
Example one_driver_summary :
  exists sm,
    @run_simulation two_orders source_config 40 1 no_draws = Returned sm /\
    Drivers sm = 1%Z /\ Avg_Wait_Time sm == 525 # 100 /\
    Avg_Total_Time sm == 3225 # 100 /\ SLA_Compliance sm == 50.
Proof.
  eexists. split; [vm_compute; reflexivity|]. repeat split.
Qed.

(** While order 1 is delivered and order 2 waits, one driver is held. *)
Lemma held_within_capacity_witness :
  capacity one_driver_busy = 1%Z /\
  (0 <= Z.of_nat (length (users one_driver_busy)) <= 1)%Z.
Proof.
  apply (@held_within_capacity two_orders source_config 1 no_draws
           one_driver_start one_driver_busy).
  - reflexivity.
  - apply advance_reachable.
Defined.

(** Order 2: arrival 3, ready 18, driver at 28.5, completion 40.5. *)
Lemma stage_times_ordered_witness :
  (4800 # 1600) <= (28800 # 1600) /\ (28800 # 1600) <= (1140 # 40) /\
  (1140 # 40) <= (1620 # 40).
Proof.
  apply (@stage_times_ordered two_orders source_config 1 no_draws
           one_driver_start one_driver_end 2).
  - reflexivity.
  - apply advance_reachable.
  - vm_compute. pick_member.
Defined.



(** Order 1 asked at 16.5, order 2 at 18; order 2 has its driver at 28.5,
    order 1 had it at 16.5. *)
Lemma grants_in_request_order_witness :
  exists ta,
    nth_error (grants (log one_driver_end)) 0 = Some (1%Z, ta) /\
    nth_error (grants (log one_driver_end)) 1 = Some (2%Z, 1140 # 40) /\
    ta <= (1140 # 40).
Proof.
  apply (@grants_in_request_order two_orders source_config 1 no_draws
           one_driver_start one_driver_end 0 1 1%Z 2%Z
           (660 # 40) (28800 # 1600) (1140 # 40)).
  - reflexivity.
  - apply advance_reachable.
  - reflexivity.
  - reflexivity.
  - left. reflexivity.
  - vm_compute. pick_member.
Defined.


(** No driver: [ValueError]; a negative SLA target: both orders of the run
    with one driver miss it. *)
Lemma checks_before_run_witness :
  @run_simulation two_orders source_config 40 0 no_draws = Raised ValueError /\
  forall rec,
    In rec (stats (@advance two_orders negative_sla_config 40
                     (@start_state two_orders negative_sla_config 1 no_draws))) ->
    SLA_Met rec = false.
Proof.
  split.
  - assert (Hn : (0 <= 0)%Z) by lia.
    exact (proj2 (proj1 (@checks_before_run two_orders source_config 40 0
                           no_draws) Hn)).
  - intros rec Hin.
    apply (proj2 (proj2 (proj2 (proj2
             (@checks_before_run two_orders negative_sla_config 40 1 no_draws))))
             ltac:(reflexivity)
             (@start_state two_orders negative_sla_config 1 no_draws)
             (@advance two_orders negative_sla_config 40
                (@start_state two_orders negative_sla_config 1 no_draws))
             rec).
    + reflexivity.
    + apply advance_reachable.
    + exact Hin.
Defined.

(** C6, at the constants of the script: with no driver the run returns
    nothing, in particular no empty sequence of records. *)
Lemma zero_capacity_counterexample :
  @simulate two_orders source_config 100 0 no_draws = Raised ValueError /\
  ~ (exists s, @simulate two_orders source_config 100 0 no_draws = Returned s /\
               stats s = []).
Proof.
  split; [reflexivity|]. intros (s & H & _). discriminate H.
Qed.


(** The same effect with two orders only, at the price of a delivery of 976
    minutes: with one driver order 2 is cut off by the horizon, with two
    drivers it completes after 991 minutes. *)
Example late_delivery_means :
  exists sm1 sm2,
    @run_simulation late_delivery source_config 40 1 no_draws = Returned sm1 /\
    @run_simulation late_delivery source_config 40 2 no_draws = Returned sm2 /\
    Avg_Total_Time sm1 == 27 /\ Avg_Total_Time sm2 == 509 /\
    SLA_Compliance sm1 == 100 /\ SLA_Compliance sm2 == 50.
Proof.
  eexists; eexists.
  split; [vm_compute; reflexivity|]. split; [vm_compute; reflexivity|].
  repeat split; reflexivity.
Qed.

(** C8, at a negative SLA target: the run is not rejected, it returns its
    summary. *)
Lemma negative_sla_counterexample :
  SLA_TARGET negative_sla_config < 0 /\
  exists sm,
    @run_simulation two_orders negative_sla_config 40 1 no_draws = Returned sm /\
    SLA_Compliance sm == 0.
Proof.
  split; [reflexivity|]. eexists. split; [vm_compute; reflexivity|reflexivity].
Qed.

(** ** The sample runs and the rest of the code *)

Lemma clock_within_horizon_witness :
  (forall k,
     0 <= now (@advance two_orders source_config k one_driver_start) /\
     now (@advance two_orders source_config k one_driver_start) <=
       SIM_TIME source_config) /\
  (forall s s', @reachable two_orders source_config one_driver_start s ->
                @step_to two_orders source_config s s' -> now s <= now s') /\
  (forall fuel s,
     @run two_orders source_config fuel one_driver_start = Returned s ->
     now s == SIM_TIME source_config).
Proof.
  apply (@clock_within_horizon two_orders source_config 1 no_draws
           one_driver_start).
  reflexivity.
Defined.


(** With a horizon of 10 the two orders, ready at 16.5 and 18, are not
    even prepared. *)
Lemma short_horizon_no_summary_witness :
  (exists e, @run_simulation two_orders short_horizon_config 40 1 no_draws =
             Raised e) \/
  @run_simulation two_orders short_horizon_config 40 1 no_draws = OutOfFuel.
Proof.
  apply (@short_horizon_no_summary two_orders short_horizon_config 40 1
           no_draws).
  simpl. lra.
Defined.

Lemma no_arrival_raises_witness :
  (exists s, @simulate no_orders source_config 2 1 no_draws = Returned s /\
             stats s = [] /\ order_id s = 0%Z) /\
  @run_simulation no_orders source_config 2 1 no_draws = Raised KeyError.
Proof.
  apply (@no_arrival_raises no_orders source_config 0 1 no_draws).
  - lia.
  - simpl. lra.
  - intros H. vm_compute in H. discriminate H.
  - intros H. vm_compute in H. discriminate H.
Defined.



(** At time 18 order 1 is with the driver and order 2 waits. *)
Lemma orders_accounted_witness :
  Permutation
    (collect pending_id (queue one_driver_busy) ++ waiting one_driver_busy ++
     collect holding_id (queue one_driver_busy) ++
     map Order_ID (stats one_driver_busy))
    (ids_upto (order_id one_driver_busy)) /\
  Z.of_nat (length (collect pending_id (queue one_driver_busy)) +
            length (put_queue one_driver_busy) +
            length (users one_driver_busy) +
            length (stats one_driver_busy)) = order_id one_driver_busy.
Proof.
  apply (@orders_accounted two_orders source_config 1 no_draws
           one_driver_start one_driver_busy).
  - reflexivity.
  - apply advance_reachable.
Defined.

Lemma records_numbered_witness :
  NoDup (map Order_ID (stats one_driver_end)) /\
  (forall rec, In rec (stats one_driver_end) ->
     (1 <= Order_ID rec <= order_id one_driver_end)%Z) /\
  (Z.of_nat (length (stats one_driver_end)) <= order_id one_driver_end)%Z.
Proof.
  apply (@records_numbered two_orders source_config 1 no_draws
           one_driver_start one_driver_end).
  - reflexivity.
  - apply advance_reachable.
Defined.

Lemma drivers_held_by_deliveries_witness :
  Permutation (map req_order_id (users one_driver_busy))
    (collect holding_id (queue one_driver_busy)) /\
  NoDup (map req_order_id (users one_driver_busy)) /\
  (forall u rec, In u (users one_driver_busy) ->
     In rec (stats one_driver_busy) -> req_order_id u <> Order_ID rec) /\
  (collect holding_id (queue one_driver_busy) = [] ->
   users one_driver_busy = []).
Proof.
  apply (@drivers_held_by_deliveries two_orders source_config 1 no_draws
           one_driver_start one_driver_busy).
  - reflexivity.
  - apply advance_reachable.
Defined.

(** At time 28.5 the driver is free and order 2 waits: the release of
    order 1 is due at that very time. *)
Lemma no_idle_driver_while_waiting_witness :
  exists x, In x (queue one_driver_released) /\ event x = ReleaseDone /\
            due x == now one_driver_released.
Proof.
  apply (@no_idle_driver_while_waiting two_orders source_config 1 no_draws
           one_driver_start one_driver_released).
  - reflexivity.
  - apply advance_reachable.
  - vm_compute. discriminate.
  - vm_compute. reflexivity.
Defined.

(** With two drivers nobody waits in sample [two_orders]. *)
Lemma no_waiting_no_wait_witness :
  (forall s rec,
     @simulate two_orders source_config 40 2 no_draws = Returned s ->
     In rec (stats s) -> Wait_For_Driver rec == 0) /\
  (forall sm,
     @run_simulation two_orders source_config 40 2 no_draws = Returned sm ->
     Avg_Wait_Time sm == 0).
Proof.
  apply (@no_waiting_no_wait two_orders source_config 40 2 no_draws
           (@start_state two_orders source_config 2 no_draws)).
  - reflexivity.
  - vm_compute. reflexivity.
Defined.

(** Order 1 arrived at 1.5 and order 2 at 3. *)
Lemma ids_follow_arrivals_witness :
  (forall i a j b, In (i, a) (arrivals one_driver_end) ->
     In (j, b) (arrivals one_driver_end) -> (i < j)%Z -> a <= b) /\
  (forall i a, In (i, a) (arrivals one_driver_end) ->
     a <= now one_driver_end /\ (1 <= i <= order_id one_driver_end)%Z).
Proof.
  apply (@ids_follow_arrivals two_orders source_config 1 no_draws
           one_driver_start one_driver_end).
  - reflexivity.
  - apply advance_reachable.
Defined.

(** Order 1 was completed at 28.5 and order 2 at 40.5. *)
Lemma records_in_completion_order_witness :
  map fst (completions (log one_driver_end)) =
    map Order_ID (stats one_driver_end) /\
  StronglySorted Qle (map snd (completions (log one_driver_end))) /\
  Forall (fun c => c <= now one_driver_end)
    (map snd (completions (log one_driver_end))).
Proof.
  apply (@records_in_completion_order two_orders source_config 1 no_draws
           one_driver_start one_driver_end).
  - reflexivity.
  - apply advance_reachable.
Defined.
